(** * DataSafe: the archive-and-catalog pipeline

    A shallow embedding of [core.py], [models.py], [manager.py] and
    [app.py], and the properties of the specification stated over it.

    A Python [str] is the [string] of its UTF-8 bytes: every character the
    code looks for is ASCII, and no byte of a longer UTF-8 sequence is.  A
    [pathlib] path is the list of its parts, a directory of a backup root
    is a finite map from entry names to what is stored there, and a
    catalog table is the list of its rows in insertion order.  Code that
    raises returns in the [res] type, whose errors stand for the
    subclasses of [Exception]; code that changes the file system or the
    catalog threads a [world], and what it can only read - the clock, the
    source tree, what the operating system and the database refuse - is an
    [env].  Logging is left out. *)

From Stdlib Require Import ZArith Ascii String List Lia.
From stdpp Require Import base option list gmap strings.
Import ListNotations.

Open Scope Z_scope.
Set Warnings "-register-all,-abstract-large-number".

(** ** Strings *)

Module Str.

(** A character-wise rewrite of a [str]; [str.replace] with one-character
    arguments and [re.sub] with a character class are both of this
    shape. *)
Fixpoint map (f : ascii → ascii) (s : string) : string :=
  match s with
  | EmptyString => EmptyString
  | String c s' => String (f c) (map f s')
  end.

(** The characters of a [str], in order. *)
Fixpoint chars (s : string) : list ascii :=
  match s with
  | EmptyString => []
  | String c s' => c :: chars s'
  end.

(** [sep.join(parts)]. *)
Fixpoint join (sep : string) (parts : list string) : string :=
  match parts with
  | [] => EmptyString
  | [p] => p
  | p :: rest => p +:+ sep +:+ join sep rest
  end.

End Str.

(** ** [core.py]: compression formats *)

(** [class CompressionType(Enum)]. *)
Inductive CompressionType := TAR | TAR_GZ | ZIP.

Global Instance CompressionType_eq_dec : EqDecision CompressionType.
Proof. solve_decision. Defined.

(** The members in definition order, as iterating the class yields them. *)
Definition members : list CompressionType := [TAR; TAR_GZ; ZIP].

(** [member.value]. *)
Definition value (c : CompressionType) : string :=
  match c with
  | TAR => "tar"
  | TAR_GZ => "tar.gz"
  | ZIP => "zip"
  end.

(** [cls._value2member_map_]: the dictionary the enum machinery builds
    from the members, keyed by value. *)
Definition _value2member_map_ : gmap string CompressionType :=
  list_to_map ((λ c, (value c, c)) <$> members).

(** [CompressionType.has_value]: [value in cls._value2member_map_]. *)
Definition has_value (v : string) : bool :=
  bool_decide (is_Some (_value2member_map_ !! v)).

(** [repr] of a list of strings without quotes in them, as an f-string
    prints it. *)
Definition repr_list (l : list string) : string :=
  "[" +:+ Str.join ", " ((λ s, "'" +:+ s +:+ "'") <$> l) +:+ "]".

(** ** [core.py]: safe names *)

(** The character class of the pattern given to [re.sub]: less-than,
    greater-than, colon, double quote (code point 34), slash, backslash,
    vertical bar, question mark and asterisk. *)
Definition reserved (c : ascii) : bool :=
  match c with
  | "<" | ">" | ":" | "034" | "/" | "\" | "|" | "?" | "*" => true
  | _ => false
  end%char.

(** [name.replace(" ", "_")]. *)
Definition replace_space (c : ascii) : ascii :=
  if Ascii.eqb c " " then "_"%char else c.

(** [re.sub(class, "_", name)], one character at a time. *)
Definition sub_reserved (c : ascii) : ascii :=
  if reserved c then "_"%char else c.

(** [SourceDirectory._make_safe_name]. *)
Definition _make_safe_name (name : string) : string :=
  let name := Str.map replace_space name in
  Str.map sub_reserved name.

(** What the specification asks of one character of a safe name. *)
Definition unsafe (c : ascii) : bool := Ascii.eqb c " " || reserved c.

(** ** Dates *)

(** A [datetime.datetime]: naive local time. *)
Record datetime := {
  year : nat; month : nat; day : nat;
  hour : nat; minute : nat; second : nat;
  microsecond : nat
}.

(** The ranges the [datetime] constructor enforces. *)
Definition valid_datetime (d : datetime) : Prop :=
  (1 ≤ year d ≤ 9999 ∧ 1 ≤ month d ≤ 12 ∧ 1 ≤ day d ≤ 31 ∧
   hour d < 24 ∧ minute d < 60 ∧ second d < 60 ∧ microsecond d < 1000000)%nat.

(** [d.replace(microsecond=0)]. *)
Definition replace_microsecond_0 (d : datetime) : datetime :=
  {| year := year d; month := month d; day := day d; hour := hour d;
     minute := minute d; second := second d; microsecond := 0 |}.

(** The decimal digit of [n mod 10]. *)
Definition digit (n : nat) : ascii :=
  match (n mod 10)%nat with
  | 0 => "0" | 1 => "1" | 2 => "2" | 3 => "3" | 4 => "4"
  | 5 => "5" | 6 => "6" | 7 => "7" | 8 => "8" | _ => "9"
  end%nat%char.

(** A two-digit, zero-padded field ([%m], [%d], [%H], [%M], [%S]). *)
Definition pad2 (n : nat) : string :=
  String (digit (n / 10)) (String (digit n) EmptyString).

(** The four-digit, zero-padded year of [%Y], as the library documents
    it; the C library of some platforms leaves out the leading zeros of a
    year below 1000. *)
Definition pad4 (n : nat) : string :=
  String (digit (n / 1000)) (String (digit (n / 100))
    (String (digit (n / 10)) (String (digit n) EmptyString))).

(** [d.strftime('%Y-%m-%d-%H%M%S')]. *)
Definition strftime_backup (d : datetime) : string :=
  pad4 (year d) +:+ "-" +:+ pad2 (month d) +:+ "-" +:+ pad2 (day d) +:+ "-" +:+
  pad2 (hour d) +:+ pad2 (minute d) +:+ pad2 (second d).

(** ** Paths *)

(** A [pathlib.Path], as the list of its parts below the file-system
    root. *)
Definition Path := list string.

(** The parts of [Path(s)] for a string without separators: the empty
    string and the dot denote the current directory and have no part. *)
Definition parts (s : string) : Path :=
  if bool_decide (s = EmptyString ∨ s = ".") then [] else [s].

(** [p / s]. *)
Definition joinpath (p : Path) (s : string) : Path := p ++ parts s.

(** [p.name]: the final component, empty for a path without parts. *)
Definition path_name (p : Path) : string := List.last p EmptyString.

(** [str(p)] for a relative path. *)
Definition str_rel (p : Path) : string :=
  match p with
  | [] => "."
  | _ => Str.join "/" p
  end.

(** [str(p)] for an absolute path. *)
Definition str_abs (p : Path) : string := "/" +:+ Str.join "/" p.

(** ** Exceptions *)

(** The subclasses of [Exception] that the modelled code raises itself or
    receives from the libraries it calls. *)
Inductive exn :=
  | ValueError (msg : string)
  | OSError (msg : string)
  | shutil_Error
  | SQLAlchemyError (msg : string).

(** The outcome of code that may raise. *)
Inductive res (A : Type) :=
  | Ok (a : A)
  | Raise (e : exn).
Arguments Ok {A} a.
Arguments Raise {A} e.

Definition is_ok {A} (r : res A) : bool :=
  match r with Ok _ => true | Raise _ => false end.

(** ** The source tree *)

(** What a directory entry is.  A symbolic link carries what following it
    reaches, if anything. *)
Inductive node :=
  | File (data : string)
  | Dir (entries : list (string * node))
  | Symlink (target : option node).

(** What following links reaches. *)
Inductive reached :=
  | RFile (data : string)
  | RDir (entries : list (string * node)).

(** Following links, as [os.stat] does: the file or directory reached, or
    nothing for a dangling link. *)
Fixpoint resolve (n : node) : option reached :=
  match n with
  | File data => Some (RFile data)
  | Dir es => Some (RDir es)
  | Symlink None => None
  | Symlink (Some t) => resolve t
  end.

(** [p.exists()], [p.is_dir()] and [p.is_file()] for what is at [p]. *)
Definition exists_ (at_p : option node) : bool :=
  match at_p ≫= resolve with Some _ => true | None => false end.

Definition is_dir (at_p : option node) : bool :=
  match at_p ≫= resolve with Some (RDir _) => true | _ => false end.

Definition is_file (n : node) : bool :=
  match resolve n with Some (RFile _) => true | _ => false end.

(** [st_size] of the file a node resolves to: its length in bytes. *)
Definition st_size (n : node) : Z :=
  match resolve n with
  | Some (RFile data) => Z.of_nat (String.length data)
  | _ => 0
  end.

(** [root.rglob("*")]: every entry below the directory, each once, with its
    path relative to the root.  Directories are descended into, links to
    directories are not.  The order within a directory is the one of
    [os.scandir]; no property below depends on the order. *)
Fixpoint rglob (rel : Path) (n : node) : list (Path * node) :=
  match n with
  | Dir es =>
      (fix go (l : list (string * node)) : list (Path * node) :=
         match l with
         | [] => []
         | (nm, c) :: l' => (rel ++ [nm], c) :: rglob (rel ++ [nm]) c ++ go l'
         end) es
  | _ => []
  end.

(** [rglob] from the directory a source path denotes, through links. *)
Definition walk (root : node) : list (Path * node) :=
  match resolve root with
  | Some (RDir es) => rglob [] (Dir es)
  | _ => []
  end.

(** ** What a backup root holds *)

(** [zipfile.ZipInfo]: one member of a zip archive. *)
Record ZipInfo := {
  filename : string;
  zip_is_dir : bool;
  file_data : string
}.

(** What the pipeline stores under a name of a backup root: a copied tree,
    a tar archive with the trees added to it, each under its top-level name
    and with links kept as links, or a zip archive with its members. *)
Inductive artifact :=
  | Tree (n : node)
  | TarFile (gz : bool) (added : list (string * node))
  | ZipFile (infolist : list ZipInfo).

(** ** The catalog *)

(** A row of [directories] ([DirectoryModel]). *)
Record DirectoryModel := {
  d_id : option Z;
  d_name : string;
  d_path : string;
  d_size : option Z;
  d_date : datetime
}.

(** A row of [backups] ([BackupModel]). *)
Record BackupModel := {
  b_id : option Z;
  directory_id : option Z;
  b_backup_name : option string;
  b_backup_path : string;
  backup_size : option Z;
  b_backup_date : datetime;
  b_compressed : bool;
  b_compression_type : option string;
  b_compressed_size : option Z
}.

(** An object handed to [session.add]. *)
Inductive obj :=
  | ODirectory (r : DirectoryModel)
  | OBackup (r : BackupModel).

(** The two tables, rows in insertion order. *)
Record tables := {
  directories : list DirectoryModel;
  backups : list BackupModel
}.

Definition no_rows : tables := {| directories := []; backups := [] |}.

(** A [sqlalchemy.orm.Session]: the objects added and not yet flushed, the
    rows inserted by the open transaction, and whether it was closed. *)
Record Session := {
  new : list obj;
  tx : tables;
  closed : bool
}.

Definition fresh_session : Session :=
  {| new := []; tx := no_rows; closed := false |}.

(** ** The environment and the state *)

(** What the code reads and cannot change: the clock, the home directory,
    the tree found at a source path, and which operations the operating
    system or the database refuses.  The source tree is taken to lie
    outside the backup roots. *)
Record env := {
  now : datetime;
  home : Path;
  lookup_path : Path → option node;
  mtime : Path → res datetime;
  stat_error : Path → option exn;
  mkdir_error : Path → option exn;
  open_error : Path → option exn;
  archive_size : artifact → res Z;
  create_all_error : option exn;
  insert_error : obj → option exn;
  commit_error : option exn;
  close_error : option exn
}.

(** What the code changes: the directories it created with what they hold,
    the committed rows of the catalog ([None] while the tables are not
    there), and the sessions made so far. *)
Record world := {
  dirs : gmap Path (gmap string artifact);
  catalog : option tables;
  sessions : list Session
}.

Definition set_dirs (f : gmap Path (gmap string artifact) → gmap Path (gmap string artifact))
    (w : world) : world :=
  {| dirs := f (dirs w); catalog := catalog w; sessions := sessions w |}.

Definition set_catalog (c : option tables) (w : world) : world :=
  {| dirs := dirs w; catalog := c; sessions := sessions w |}.

Definition set_sessions (f : list Session → list Session) (w : world) : world :=
  {| dirs := dirs w; catalog := catalog w; sessions := f (sessions w) |}.

(** ** Stateful code that may raise *)

Definition M (A : Type) : Type := world → res A * world.

Definition ret {A} (a : A) : M A := λ w, (Ok a, w).
Definition raise {A} (e : exn) : M A := λ w, (Raise e, w).
Definition bind {A B} (c : M A) (k : A → M B) : M B :=
  λ w, match c w with
       | (Ok a, w') => k a w'
       | (Raise e, w') => (Raise e, w')
       end.

(** [try: c except Exception as e: h e]: what [c] did to the state before
    raising stays done. *)
Definition try_except {A} (c : M A) (h : exn → M A) : M A :=
  λ w, match c w with
       | (Ok a, w') => (Ok a, w')
       | (Raise e, w') => h e w'
       end.

Definition get : M world := λ w, (Ok w, w).
Definition modify (f : world → world) : M unit := λ w, (Ok tt, f w).
Definition lift {A} (r : res A) : M A := λ w, (r, w).

(** Raise when the environment refuses the operation. *)
Definition refuse (o : option exn) : M unit :=
  match o with Some e => raise e | None => ret tt end.

Notation "'let*' x ':=' c 'in' k" := (bind c (λ x, k))
  (at level 10, x name, c at level 100, k at level 200).
Notation "c ';;;' k" := (bind c (λ _, k))
  (at level 100, k at level 200, right associativity).

(** ** [core.py]: [SourceDirectory] *)

Record SourceDirectory := {
  path : Path;
  name : string;
  size : option Z;
  date : datetime;
  calculate_size : bool
}.

(** The generator expression of [_get_size] under [sum]: the sizes of the
    entries for which [is_file()] holds; a [stat] that raises ends it. *)
Fixpoint sum_sizes (e : env) (root : Path) (l : list (Path * node)) : res Z :=
  match l with
  | [] => Ok 0
  | (rel, f) :: l' =>
      match stat_error e (root ++ rel) with
      | Some ex => Raise ex
      | None =>
          match sum_sizes e root l' with
          | Ok z => Ok ((if is_file f then st_size f else 0) + z)
          | Raise ex => Raise ex
          end
      end
  end.

(** [SourceDirectory._get_size]. *)
Definition _get_size (e : env) (p : Path) (root : node) : Z :=
  match sum_sizes e p (walk root) with
  | Ok z => z
  | Raise _ => 0
  end.

(** [SourceDirectory.__post_init__], run by [SourceDirectory(p, calc)]. *)
Definition SourceDirectory_init (e : env) (p : Path) (calc : bool)
    : res SourceDirectory :=
  if negb (exists_ (lookup_path e p)) || negb (is_dir (lookup_path e p)) then
    Raise (ValueError ("Directory: '" +:+ str_abs p +:+ "' is not a valid directory."))
  else
    let name := _make_safe_name (path_name p) in
    let date :=
      match mtime e p with
      | Ok d => d
      | Raise _ => replace_microsecond_0 (now e)
      end in
    let size :=
      if calc then
        match lookup_path e p with
        | Some root => Some (_get_size e p root)
        | None => Some 0
        end
      else None in
    Ok {| path := p; name := name; size := size; date := date;
          calculate_size := calc |}.

(** ** [core.py]: [BackupArchive] *)

Record BackupArchive := {
  source : SourceDirectory;
  compressed : bool;
  backup_path : Path;
  backup_name : option string;
  backup_date : datetime;
  compression_type : CompressionType;
  compressed_size : option Z;
  backup_file : option Path
}.

Definition set_backup_name (v : option string) (a : BackupArchive) :=
  {| source := source a; compressed := compressed a;
     backup_path := backup_path a; backup_name := v;
     backup_date := backup_date a; compression_type := compression_type a;
     compressed_size := compressed_size a; backup_file := backup_file a |}.

Definition set_backup_file (v : option Path) (a : BackupArchive) :=
  {| source := source a; compressed := compressed a;
     backup_path := backup_path a; backup_name := backup_name a;
     backup_date := backup_date a; compression_type := compression_type a;
     compressed_size := compressed_size a; backup_file := v |}.

Definition set_compressed_size (v : option Z) (a : BackupArchive) :=
  {| source := source a; compressed := compressed a;
     backup_path := backup_path a; backup_name := backup_name a;
     backup_date := backup_date a; compression_type := compression_type a;
     compressed_size := v; backup_file := backup_file a |}.

(** [a or b] on strings, the first of which may be [None]. *)
Definition or_else (a : option string) (b : string) : string :=
  match a with
  | Some s => if bool_decide (s = EmptyString) then b else s
  | None => b
  end.

(** [BackupArchive._make_backup_name]. *)
Definition _make_backup_name (self : BackupArchive) : string :=
  let base_name := or_else (backup_name self) (name (source self)) in
  let safe_name := _make_safe_name base_name in
  safe_name +:+ "-" +:+ strftime_backup (backup_date self).

(** [BackupArchive._get_backup_file_path]. *)
Definition _get_backup_file_path (self : BackupArchive) : res Path :=
  match backup_name self with
  | None => Raise (ValueError "backup_name cannot be None")
  | Some bn =>
      let ext := if compressed self then value (compression_type self)
                 else EmptyString in
      if bool_decide (ext ≠ EmptyString)
      then Ok (joinpath (backup_path self) (bn +:+ "." +:+ ext))
      else Ok (joinpath (backup_path self) bn)
  end.

(** *** Writing below a backup root *)

(** The parent directory and the final component of a path. *)
Definition parent (p : Path) : Path := removelast p.

(** What is stored at [p], if its parent is a directory of the state. *)
Definition entry_at (w : world) (p : Path) : option artifact :=
  dirs w !! parent p ≫= λ m, m !! path_name p.

(** [(dir / nm).exists()] on the state, for a name without separators:
    [dir] is a directory of the state, and [nm] denotes [dir] itself, its
    parent, or one of its entries. *)
Definition exists_under (w : world) (dir : Path) (nm : string) : bool :=
  match dirs w !! dir with
  | None => false
  | Some m =>
      match parts nm with
      | [] => true
      | _ => bool_decide (nm = "..") || bool_decide (is_Some (m !! nm))
      end
  end.

(** [p.mkdir(parents=True, exist_ok=True)]. *)
Definition mkdir (e : env) (p : Path) : M unit :=
  let* w := get in
  if bool_decide (is_Some (dirs w !! p)) then ret tt
  else
    refuse (mkdir_error e p) ;;;
    modify (set_dirs (λ d, <[p := ∅]> d)).

(** Creating the entry [p] with content [a], replacing what was there. *)
Definition store (e : env) (p : Path) (a : artifact) : M unit :=
  refuse (open_error e p) ;;;
  let* w := get in
  match dirs w !! parent p with
  | Some m => modify (set_dirs (λ d, <[parent p := <[path_name p := a]> m]> d))
  | None => raise (OSError "No such file or directory")
  end.

(** *** Archive members *)

(** The member [zipf.write(str(file), arcname=arcname)] appends: [os.stat]
    follows links, a directory gets a trailing slash and no data, and a
    dangling link raises.  The names of directory entries hold no
    separator and are neither the dot nor the double dot, so the
    normalisation [zipfile] applies to the internal path changes
    nothing. *)
Definition zip_member (arcname : string) (f : node) : res ZipInfo :=
  match resolve f with
  | Some (RFile data) =>
      Ok {| filename := arcname; zip_is_dir := false; file_data := data |}
  | Some (RDir _) =>
      Ok {| filename := arcname +:+ "/"; zip_is_dir := true;
            file_data := EmptyString |}
  | None => Raise (OSError "No such file or directory")
  end.

(** The loop of the ZIP branch over the traversal: the members written
    before the first failure, and that failure if there is one. *)
Fixpoint zip_loop (e : env) (root : Path) (safe_name : string)
    (l : list (Path * node)) : list ZipInfo * option exn :=
  match l with
  | [] => ([], None)
  | (rel, file) :: l' =>
      let arcname := str_rel (parts safe_name ++ rel) in
      match stat_error e (root ++ rel) with
      | Some ex => ([], Some ex)
      | None =>
          match zip_member arcname file with
          | Raise ex => ([], Some ex)
          | Ok zi =>
              let '(zs, err) := zip_loop e root safe_name l' in
              (zi :: zs, err)
          end
      end
  end.

(** What [shutil.copytree] writes for a node: links are followed, and an
    entry that is a dangling link is left out. *)
Fixpoint copied (n : node) : option node :=
  match n with
  | File data => Some (File data)
  | Symlink None => None
  | Symlink (Some t) => copied t
  | Dir es =>
      Some (Dir ((fix go (l : list (string * node)) : list (string * node) :=
                    match l with
                    | [] => []
                    | (nm, c) :: l' =>
                        match copied c with
                        | Some c' => (nm, c') :: go l'
                        | None => go l'
                        end
                    end) es))
  end.

(** Whether the copy meets a dangling link, which [copytree] reports by
    raising [shutil.Error] once everything else is copied. *)
Fixpoint dangling (n : node) : bool :=
  match n with
  | File _ => false
  | Symlink None => true
  | Symlink (Some t) => dangling t
  | Dir es =>
      (fix go (l : list (string * node)) : bool :=
         match l with
         | [] => false
         | (_, c) :: l' => dangling c || go l'
         end) es
  end.

(** [shutil.copytree(src, dest)]. *)
Definition copytree (e : env) (src : Path) (dest : Path) : M unit :=
  match lookup_path e src ≫= copied with
  | None => raise (OSError "No such file or directory")
  | Some t =>
      store e dest (Tree t) ;;;
      if from_option dangling false (lookup_path e src)
      then raise shutil_Error else ret tt
  end.

(** *** The write step *)

(** [BackupArchive._compress].  The final [else] of the source is not
    reached: the three members are all there are. *)
Definition _compress (e : env) (self : BackupArchive) : M unit :=
  let file := default [] (backup_file self) in
  let src := source self in
  match compression_type self with
  | TAR =>
      store e file (TarFile false []) ;;;
      match lookup_path e (path src) with
      | Some n => store e file (TarFile false [(name src, n)])
      | None => raise (OSError "No such file or directory")
      end
  | TAR_GZ =>
      store e file (TarFile true []) ;;;
      match lookup_path e (path src) with
      | Some n => store e file (TarFile true [(name src, n)])
      | None => raise (OSError "No such file or directory")
      end
  | ZIP =>
      store e file (ZipFile []) ;;;
      let '(zs, err) :=
        zip_loop e (path src) (name src)
                 (from_option walk [] (lookup_path e (path src))) in
      store e file (ZipFile zs) ;;;
      refuse err
  end.

(** [BackupArchive._move]. *)
Definition _move (e : env) (self : BackupArchive) : M unit :=
  let dest := joinpath (backup_path self) (name (source self)) in
  let* w := get in
  if exists_under w (backup_path self) (name (source self)) then ret tt
  else copytree e (path (source self)) dest.

(** The size read back after compressing:
    [backup_file.stat().st_size if backup_file.exists() else None]. *)
Definition measured (e : env) (self : BackupArchive) : M (option Z) :=
  let* w := get in
  match entry_at w (default [] (backup_file self)) with
  | Some a => let* z := lift (archive_size e a) in ret (Some z)
  | None => ret None
  end.

(** [BackupArchive.__post_init__], given the field values the dataclass
    constructor has stored. *)
Definition BackupArchive_post_init (e : env) (self : BackupArchive)
    : M BackupArchive :=
  if compressed self && negb (has_value (value (compression_type self))) then
    raise (ValueError ("Unsupported compression type: "
                       +:+ value (compression_type self) +:+ "."
                       +:+ "Supported: " +:+ repr_list (value <$> members)))
  else
    try_except (mkdir e (backup_path self)) (λ ex, raise ex) ;;;
    let self := set_backup_name (Some (_make_backup_name self)) self in
    let* file := lift (_get_backup_file_path self) in
    let self := set_backup_file (Some file) self in
    if compressed self then
      try_except
        (_compress e self ;;;
         let* sz := measured e self in
         ret (set_compressed_size sz self))
        (λ _, ret (set_compressed_size None self))
    else
      try_except
        (_move e self ;;;
         ret (set_compressed_size None self))
        (λ _, ret (set_compressed_size None self)).

(** [BackupArchive(source, compressed, compression_type=ct)] with the
    defaults of the other fields, and with them given. *)
Definition BackupArchive_new (e : env) (src : SourceDirectory) (c : bool)
    (bp : Path) (bn : option string) (bd : datetime) (ct : CompressionType)
    : M BackupArchive :=
  BackupArchive_post_init e
    {| source := src; compressed := c; backup_path := bp; backup_name := bn;
       backup_date := bd; compression_type := ct;
       compressed_size := None; backup_file := None |}.

Definition BackupArchive_init (e : env) (src : SourceDirectory) (c : bool)
    (ct : CompressionType) : M BackupArchive :=
  BackupArchive_new e src c (home e ++ [".backups"]) None (now e) ct.

(** ** [models.py]: the session and the schema *)

(** The key an [INTEGER PRIMARY KEY] column gets on insert: one more than
    the largest key the transaction sees. *)
Definition next_id (ids : list (option Z)) : Z :=
  1 + foldr Z.max 0 (omap id ids).

Definition with_d_id (i : Z) (r : DirectoryModel) : DirectoryModel :=
  {| d_id := Some i; d_name := d_name r; d_path := d_path r;
     d_size := d_size r; d_date := d_date r |}.

Definition with_b_id (i : Z) (r : BackupModel) : BackupModel :=
  {| b_id := Some i; directory_id := directory_id r;
     b_backup_name := b_backup_name r; b_backup_path := b_backup_path r;
     backup_size := backup_size r; b_backup_date := b_backup_date r;
     b_compressed := b_compressed r;
     b_compression_type := b_compression_type r;
     b_compressed_size := b_compressed_size r |}.

(** The [INSERT] a flush emits for one object: the object with its key
    written back, and the tables of the transaction with the row added.
    A key the object already carries is kept. *)
Definition insert (e : env) (committed : option tables) (t : tables) (o : obj)
    : res (obj * tables) :=
  match committed with
  | None => Raise (SQLAlchemyError "no such table")
  | Some c =>
      match insert_error e o with
      | Some ex => Raise ex
      | None =>
          match o with
          | ODirectory r =>
              let i := default (next_id (d_id <$> directories c ++ directories t))
                               (d_id r) in
              Ok (ODirectory (with_d_id i r),
                  {| directories := directories t ++ [with_d_id i r];
                     backups := backups t |})
          | OBackup r =>
              let i := default (next_id (b_id <$> backups c ++ backups t))
                               (b_id r) in
              Ok (OBackup (with_b_id i r),
                  {| directories := directories t;
                     backups := backups t ++ [with_b_id i r] |})
          end
      end
  end.

(** The inserts of a flush, in the order the objects were added; the rows
    inserted before a failure stay in the transaction until it is rolled
    back. *)
Fixpoint insert_all (e : env) (committed : option tables) (t : tables)
    (l : list obj) : res (list obj) * tables :=
  match l with
  | [] => (Ok [], t)
  | o :: l' =>
      match insert e committed t o with
      | Raise ex => (Raise ex, t)
      | Ok (o', t') =>
          match insert_all e committed t' l' with
          | (Ok os, t'') => (Ok (o' :: os), t'')
          | (Raise ex, t'') => (Raise ex, t'')
          end
      end
  end.

(** The session behind a handle. *)
Definition the_session (h : nat) : M Session :=
  let* w := get in
  match sessions w !! h with
  | Some s => ret s
  | None => raise (SQLAlchemyError "no session")
  end.

Definition put_session (h : nat) (s : Session) : M unit :=
  modify (set_sessions (λ l, <[h := s]> l)).

(** [DatabaseManager()]: an engine on [backups.db] and one new session;
    the handle of that session stands for the manager. *)
Definition DatabaseManager_init : M nat :=
  let* w := get in
  modify (set_sessions (λ l, l ++ [fresh_session])) ;;;
  ret (length (sessions w)).

(** [DatabaseManager.create_db]: [create_all] adds the tables that are
    missing and keeps the rows of those that are there. *)
Definition create_db (e : env) : M unit :=
  refuse (create_all_error e) ;;;
  let* w := get in
  match catalog w with
  | Some _ => ret tt
  | None => modify (set_catalog (Some no_rows))
  end.

(** [session.add(o)]. *)
Definition Session_add (h : nat) (o : obj) : M unit :=
  let* s := the_session h in
  put_session h {| new := new s ++ [o]; tx := tx s; closed := closed s |}.

(** [session.flush()]: the objects as they are once their keys are
    written back. *)
Definition Session_flush (e : env) (h : nat) : M (list obj) :=
  let* s := the_session h in
  let* w := get in
  match insert_all e (catalog w) (tx s) (new s) with
  | (Ok os, t) =>
      put_session h {| new := []; tx := t; closed := closed s |} ;;;
      ret os
  | (Raise ex, t) =>
      put_session h {| new := new s; tx := t; closed := closed s |} ;;;
      raise ex
  end.

(** [session.commit()]: flush, then make the rows of the transaction
    visible. *)
Definition Session_commit (e : env) (h : nat) : M unit :=
  Session_flush e h ;;;
  refuse (commit_error e) ;;;
  let* s := the_session h in
  let* w := get in
  match catalog w with
  | None => raise (SQLAlchemyError "no such table")
  | Some c =>
      modify (set_catalog
                (Some {| directories := directories c ++ directories (tx s);
                         backups := backups c ++ backups (tx s) |})) ;;;
      put_session h {| new := []; tx := no_rows; closed := closed s |}
  end.

(** [session.rollback()]: the pending objects and the rows of the
    transaction are dropped. *)
Definition Session_rollback (h : nat) : M unit :=
  let* s := the_session h in
  put_session h {| new := []; tx := no_rows; closed := closed s |}.

(** [session.close()]. *)
Definition Session_close (e : env) (h : nat) : M unit :=
  refuse (close_error e) ;;;
  let* s := the_session h in
  put_session h {| new := []; tx := no_rows; closed := true |}.

(** ** [manager.py]: [BackupManager] *)

Record BackupManager := {
  session : nat;
  source_dir : SourceDirectory;
  backup_archive : BackupArchive
}.

(** [BackupManager.__init__]. *)
Definition BackupManager_init (e : env) (p : Path) (calc : bool) (c : bool)
    (ct : CompressionType) : M BackupManager :=
  try_except
    (let* db := DatabaseManager_init in
     let* src := lift (SourceDirectory_init e p calc) in
     let* arch := BackupArchive_init e src c ct in
     ret {| session := db; source_dir := src; backup_archive := arch |})
    (λ ex, raise ex).

(** The two objects [save_backup_metadata] constructs. *)
Definition dir_mod (src : SourceDirectory) : DirectoryModel :=
  {| d_id := None; d_name := name src; d_path := str_abs (path src);
     d_size := size src; d_date := date src |}.

Definition backup_mod (arch : BackupArchive) (dir_mod_id : option Z)
    : BackupModel :=
  {| b_id := None;
     directory_id := dir_mod_id;
     b_backup_name := backup_name arch;
     b_backup_path := str_abs (backup_path arch);
     backup_size := compressed_size arch;
     b_backup_date := backup_date arch;
     b_compressed := compressed arch;
     b_compression_type :=
       if compressed arch then Some (value (compression_type arch))
       else None;
     b_compressed_size := compressed_size arch |}.

(** [dir_mod.id] after the flush. *)
Definition flushed_directory_id (os : list obj) : option Z :=
  match os with
  | ODirectory r :: _ => d_id r
  | _ => None
  end.

(** [BackupManager.save_backup_metadata]. *)
Definition save_backup_metadata (e : env) (self : BackupManager) : M unit :=
  let src := source_dir self in
  let arch := backup_archive self in
  try_except
    (Session_add (session self) (ODirectory (dir_mod src)) ;;;
     let* os := Session_flush e (session self) in
     Session_add (session self)
                 (OBackup (backup_mod arch (flushed_directory_id os))) ;;;
     Session_commit e (session self))
    (λ ex, Session_rollback (session self) ;;; raise ex).

(** [BackupManager.close]. *)
Definition close (e : env) (self : BackupManager) : M unit :=
  try_except (Session_close e (session self)) (λ _, ret tt).

(** ** [app.py]: the entry point *)

(** The body of [main] for a given source and configuration. *)
Definition run (e : env) (p : Path) (calc : bool) (c : bool)
    (ct : CompressionType) : M unit :=
  try_except
    (let* db := DatabaseManager_init in
     create_db e ;;;
     let* backup_mgr := BackupManager_init e p calc c ct in
     save_backup_metadata e backup_mgr ;;;
     close e backup_mgr)
    (λ _, ret tt).

(** [main]. *)
Definition main (e : env) : M unit :=
  run e (home e ++ ["Desktop"; "DataSafe"]) true true ZIP.

(** ** Notions the properties are stated with *)



(** What one traversal entry adds to the sum of [_get_size]. *)
Definition counted (f : node) : Z := if is_file f then st_size f else 0.

(** The sum of [_get_size] over a traversal in which no [stat] raises. *)
Definition sizes_total (l : list (Path * node)) : Z :=
  foldr (λ x z, counted x.2 + z) 0 l.

(** The archive as [__post_init__] has it when the write step starts:
    name and destination file computed, nothing measured. *)
Definition prepared (self : BackupArchive) : BackupArchive :=
  let named := set_backup_name (Some (_make_backup_name self)) self in
  set_backup_file
    (match _get_backup_file_path named with
     | Ok file => Some file
     | Raise _ => None
     end) named.

(** The write step of [__post_init__]: the body of the [try] it runs for
    the archive's mode. *)
Definition write_step (e : env) (self : BackupArchive) : M BackupArchive :=
  if compressed self then
    _compress e self ;;;
    let* sz := measured e self in
    ret (set_compressed_size sz self)
  else
    _move e self ;;;
    ret (set_compressed_size None self).

(** The extension of the destination file, with its dot. *)
Definition suffix (c : bool) (ct : CompressionType) : string :=
  if c then "." +:+ value ct else EmptyString.

(** The internal path of a zip member for a traversal entry. *)
Definition member_name (safe_name : string) (entry : Path * node) : string :=
  safe_name +:+ "/" +:+ Str.join "/" entry.1
  +:+ (if is_dir (Some entry.2) then "/" else EmptyString).

(** The zip member for a traversal entry: its internal path, whether it
    is a directory member, and the data of the file reached. *)
Definition member_of (safe_name : string) (entry : Path * node) : ZipInfo :=
  {| filename := member_name safe_name entry;
     zip_is_dir := is_dir (Some entry.2);
     file_data := match resolve entry.2 with
                  | Some (RFile data) => data
                  | _ => EmptyString
                  end |}.

(** The rows of a catalog, none while the tables are missing. *)
Definition rows (c : option tables) : tables := default no_rows c.

(** Code that touches neither the catalog nor the sessions. *)
Definition keeps_catalog {A} (c : M A) : Prop :=
  ∀ w r w', c w = (r, w') → catalog w' = catalog w ∧ sessions w' = sessions w.

(** The state once [DatabaseManager()] has made one more session. *)
Definition add_session (w : world) : world :=
  set_sessions (λ l, l ++ [fresh_session]) w.

(** The message of the error an invalid source path is refused with. *)
Definition not_a_directory (p : Path) : exn :=
  ValueError ("Directory: '" +:+ str_abs p +:+ "' is not a valid directory.").

(** What the specification asks of the sessions of a run from [w] to
    [w']: one session more, and that one closed. *)
Definition one_session_released (w w' : world) : Prop :=
  ∃ s, sessions w' = sessions w ++ [s] ∧ closed s = true.

(** *** Sample inputs *)

Definition t0 : datetime :=
  {| year := 2024; month := 3; day := 7; hour := 9; minute := 5;
     second := 42; microsecond := 123 |}.

Definition t1 : datetime :=
  {| year := 2024; month := 3; day := 7; hour := 9; minute := 5;
     second := 43; microsecond := 0 |}.

(** [Notes/] with [a.txt] (5 bytes) and [sub/b.txt] (3 bytes). *)
Definition notes : node :=
  Dir [("a.txt", File "hello"); ("sub", Dir [("b.txt", File "abc")])].

(** A directory with a 5-byte file and a link to it. *)
Definition linked : node :=
  Dir [("a.txt", File "hello"); ("l", Symlink (Some (File "hello")))].

Definition notes_path : Path := ["home"; "u"; "Notes"].
Definition backups_path : Path := ["home"; "u"; ".backups"].

(** An environment in which [tree] is at [src] and nothing is refused. *)
Definition quiet (src : Path) (tree : node) : env :=
  {| now := t0; home := ["home"; "u"];
     lookup_path := λ p, if bool_decide (p = src) then Some tree else None;
     mtime := λ _, Ok t0;
     stat_error := λ _, None; mkdir_error := λ _, None;
     open_error := λ _, None; archive_size := λ _, Ok 77;
     create_all_error := None; insert_error := λ _, None;
     commit_error := None; close_error := None |}.

(** The same with every creation of a file or directory below a backup
    root refused. *)
Definition read_only (src : Path) (tree : node) : env :=
  {| now := t0; home := ["home"; "u"];
     lookup_path := λ p, if bool_decide (p = src) then Some tree else None;
     mtime := λ _, Ok t0;
     stat_error := λ _, None; mkdir_error := λ _, None;
     open_error := λ _, Some (OSError "Read-only file system");
     archive_size := λ _, Ok 77;
     create_all_error := None; insert_error := λ _, None;
     commit_error := None; close_error := None |}.

(** The same with the insert of a backup row refused. *)
Definition no_backup_rows (src : Path) (tree : node) : env :=
  {| now := t0; home := ["home"; "u"];
     lookup_path := λ p, if bool_decide (p = src) then Some tree else None;
     mtime := λ _, Ok t0;
     stat_error := λ _, None; mkdir_error := λ _, None;
     open_error := λ _, None; archive_size := λ _, Ok 77;
     create_all_error := None;
     insert_error := λ o, match o with
                          | OBackup _ => Some (SQLAlchemyError "constraint failed")
                          | ODirectory _ => None
                          end;
     commit_error := None; close_error := None |}.


(** [SourceDirectory(notes_path, True)] where [notes] is at that path. *)
Definition notes_source : SourceDirectory :=
  {| path := notes_path; name := "Notes"; size := Some 8; date := t0;
     calculate_size := true |}.

(** The field values of [BackupArchive(src, c, backups_path,
    compression_type=ct)] built at [t0], before [__post_init__]. *)
Definition fields (src : SourceDirectory) (c : bool) (ct : CompressionType)
    : BackupArchive :=
  {| source := src; compressed := c; backup_path := backups_path;
     backup_name := None; backup_date := t0; compression_type := ct;
     compressed_size := None; backup_file := None |}.

(** Nothing created, no tables, no session. *)
Definition empty_world : world :=
  {| dirs := ∅; catalog := None; sessions := [] |}.

(** The backup root holding a copy of [notes] under its safe name. *)
Definition copied_world : world :=
  {| dirs := {[ backups_path := {[ "Notes" := Tree notes ]} ]};
     catalog := None; sessions := [] |}.

(** A manager whose archive was built and measured, and the state it
    records in: tables there and empty, its session fresh. *)
Definition notes_manager : BackupManager :=
  {| session := 0; source_dir := notes_source;
     backup_archive :=
       set_compressed_size (Some 77) (prepared (fields notes_source true ZIP)) |}.

Definition ready_world : world :=
  {| dirs := ∅; catalog := Some no_rows; sessions := [fresh_session] |}.

(** A session that was closed with nothing pending. *)
Definition closed_session : Session :=
  {| new := []; tx := no_rows; closed := true |}.

(** *** Notions for the further properties *)

(** Two construction times that agree in every field down to the second,
    whatever their microseconds. *)
Definition same_second (d1 d2 : datetime) : Prop :=
  year d1 = year d2 ∧ month d1 = month d2 ∧ day d1 = day d2
  ∧ hour d1 = hour d2 ∧ minute d1 = minute d2 ∧ second d1 = second d2.



(** The safe name a build starts its backup name with. *)
Definition base_name (bn : option string) (src : SourceDirectory) : string :=
  _make_safe_name (or_else bn (name src)).

(** A character that can stand in a single path component on every
    platform the code sanitises for: no separator and no space. *)
Definition plain (c : ascii) : Prop :=
  c ≠ "/"%char ∧ c ≠ "\"%char ∧ c ≠ " "%char.




(** *** Further sample inputs *)

(** A directory with a dangling link between two files. *)
Definition broken : node :=
  Dir [("a.txt", File "hello"); ("l", Symlink None); ("z.txt", File "zz")].

(** [tree] at [src], with the creation of directories refused. *)
Definition no_mkdir (src : Path) (tree : node) : env :=
  {| now := t0; home := ["home"; "u"];
     lookup_path := λ p, if bool_decide (p = src) then Some tree else None;
     mtime := λ _, Ok t0;
     stat_error := λ _, None;
     mkdir_error := λ _, Some (OSError "Permission denied");
     open_error := λ _, None; archive_size := λ _, Ok 77;
     create_all_error := None; insert_error := λ _, None;
     commit_error := None; close_error := None |}.

(** [tree] at [src], with the modification time unreadable. *)
Definition no_mtime (src : Path) (tree : node) : env :=
  {| now := t0; home := ["home"; "u"];
     lookup_path := λ p, if bool_decide (p = src) then Some tree else None;
     mtime := λ _, Raise (OSError "Permission denied");
     stat_error := λ _, None; mkdir_error := λ _, None;
     open_error := λ _, None; archive_size := λ _, Ok 77;
     create_all_error := None; insert_error := λ _, None;
     commit_error := None; close_error := None |}.

(** The state with the backup root there and empty. *)
Definition rooted_world : world :=
  {| dirs := {[ backups_path := ∅ ]}; catalog := None; sessions := [] |}.

(** * Properties *)

(** ** Strings *)

Section str_facts.
Implicit Types s t : string.

Lemma chars_app s t : Str.chars (s +:+ t) = Str.chars s ++ Str.chars t.
Proof. induction s as [|c s IH]; [done|]. cbn. by rewrite <- IH. Qed.

Lemma chars_map f s : Str.chars (Str.map f s) = f <$> Str.chars s.
Proof. induction s as [|c s IH]; [done|]. cbn. by rewrite IH. Qed.

Lemma get_map f n s : String.get n (Str.map f s) = f <$> String.get n s.
Proof. revert n. induction s as [|c s IH]; intros [|n]; cbn; auto. Qed.

Lemma str_app_empty_r s : s +:+ EmptyString = s.
Proof.
  induction s as [|c s IH]; [done|].
  change (String c (s +:+ EmptyString) = String c s). by rewrite IH.
Qed.

Lemma str_app_assoc s t u : (s +:+ t) +:+ u = s +:+ t +:+ u.
Proof.
  induction s as [|c s IH]; [done|].
  change (String c ((s +:+ t) +:+ u) = String c (s +:+ t +:+ u)).
  by rewrite IH.
Qed.

Lemma str_map_map f g s : Str.map f (Str.map g s) = Str.map (λ c, f (g c)) s.
Proof. induction s as [|c s IH]; cbn; [done|]. by rewrite IH. Qed.

End str_facts.

(** ** Safe names *)

Lemma sub_replace_safe c : unsafe (sub_reserved (replace_space c)) = false.
Proof. by destruct c as [[] [] [] [] [] [] [] []]. Qed.

Lemma sub_replace_spec c :
  sub_reserved (replace_space c) = if unsafe c then "_"%char else c.
Proof. by destruct c as [[] [] [] [] [] [] [] []]. Qed.

Lemma sub_replace_idem c :
  sub_reserved (replace_space (sub_reserved (replace_space c)))
  = sub_reserved (replace_space c).
Proof. by destruct c as [[] [] [] [] [] [] [] []]. Qed.

Lemma _make_safe_name_idem s :
  _make_safe_name (_make_safe_name s) = _make_safe_name s.
Proof.
  unfold _make_safe_name. rewrite !str_map_map.
  induction s as [|c s IH]; cbn; [done|].
  by rewrite sub_replace_idem, IH.
Qed.

(** C1. For every name, [_make_safe_name] first replaces spaces and then
    the nine reserved characters by underscores: each character of the
    name that is a space or reserved becomes an underscore at the same
    position, every other character stays, and the result holds neither a
    space nor a reserved character. *)
Theorem safe_name_replaces_unsafe_characters (name : string) :
  _make_safe_name name = Str.map sub_reserved (Str.map replace_space name)
  ∧ (∀ n, String.get n (_make_safe_name name)
          = (λ c, if unsafe c then "_"%char else c) <$> String.get n name)
  ∧ Forall (λ c, c ≠ " "%char ∧ reserved c = false)
           (Str.chars (_make_safe_name name)).
Proof.
  split; [done|]. unfold _make_safe_name. rewrite str_map_map. split.
  - intros n. rewrite get_map.
    destruct (String.get n name) as [c|]; cbn; [|done].
    by rewrite sub_replace_spec.
  - rewrite chars_map. apply Forall_fmap, Forall_forall. intros c _. cbn.
    pose proof (sub_replace_safe c) as H. unfold unsafe in H.
    apply orb_false_elim in H as [Hs Hr]. split; [|done].
    intros E. rewrite E in Hs. done.
Qed.

(** ** Compression formats *)

Lemma has_value_of_member (c : CompressionType) : has_value (value c) = true.
Proof. by destruct c. Qed.

(** ** Running stateful code *)

Ltac run_M :=
  repeat progress
    (unfold refuse, bind, ret, raise, try_except, get, modify, lift in *;
     cbn beta iota in *).

Lemma mkdir_cases e p w :
  (is_Some (dirs w !! p) ∧ mkdir e p w = (Ok tt, w))
  ∨ (dirs w !! p = None ∧ ∃ ex, mkdir_error e p = Some ex
                                ∧ mkdir e p w = (Raise ex, w))
  ∨ (dirs w !! p = None ∧ mkdir_error e p = None
     ∧ mkdir e p w = (Ok tt, set_dirs (λ d, <[p := ∅]> d) w)).
Proof.
  unfold mkdir. run_M. case_bool_decide as Hd.
  - left. done.
  - right. apply eq_None_not_Some in Hd.
    destruct (mkdir_error e p) as [ex|] eqn:E; [left|right]; eauto.
Qed.

Lemma mkdir_ok_dir e p w w1 :
  mkdir e p w = (Ok tt, w1) → is_Some (dirs w1 !! p).
Proof.
  destruct (mkdir_cases e p w) as [[? E]|[[? (ex & ? & E)]|(? & ? & E)]];
    rewrite E; intros [= <-]; [done|].
  cbn. rewrite lookup_insert_eq. done.
Qed.

Lemma mkdir_frame e p w r w1 :
  mkdir e p w = (r, w1) → catalog w1 = catalog w ∧ sessions w1 = sessions w.
Proof.
  destruct (mkdir_cases e p w) as [[? E]|[[? (ex & ? & E)]|(? & ? & E)]];
    rewrite E; by intros [= <- <-].
Qed.

Lemma prepared_file self :
  backup_file (prepared self)
  = Some (joinpath (backup_path self)
            (_make_backup_name self
             +:+ suffix (compressed self) (compression_type self))).
Proof.
  unfold prepared, _get_backup_file_path, suffix. cbn.
  destruct (compressed self); cbn.
  - case_bool_decide as H; [done|]. by destruct (compression_type self).
  - case_bool_decide as H; [done|]. by rewrite str_app_empty_r.
Qed.

(** [__post_init__] once the backup root is there: the write step under
    its [try], with the one handler both modes share. *)
Lemma post_init_after_mkdir e self w w1 :
  mkdir e (backup_path self) w = (Ok tt, w1) →
  BackupArchive_post_init e self w
  = try_except (write_step e (prepared self))
               (λ _, ret (set_compressed_size None (prepared self))) w1.
Proof.
  intros Hm. unfold BackupArchive_post_init.
  rewrite has_value_of_member, andb_false_r.
  unfold bind at 1. unfold try_except at 1. rewrite Hm.
  pose proof (prepared_file self) as Hf.
  unfold prepared in *. cbn zeta in *.
  destruct (_get_backup_file_path _) as [file|ex] eqn:E; [|done].
  unfold lift, bind at 1. unfold write_step. cbn.
  by destruct (compressed self).
Qed.

Lemma post_init_mkdir_raises e self w ex :
  mkdir e (backup_path self) w = (Raise ex, w) →
  BackupArchive_post_init e self w = (Raise ex, w).
Proof.
  intros Hm. unfold BackupArchive_post_init.
  rewrite has_value_of_member, andb_false_r.
  unfold bind at 1. unfold try_except at 1. rewrite Hm. done.
Qed.

Lemma try_write_ok e self w :
  ∃ a w', try_except (write_step e self)
            (λ _, ret (set_compressed_size None self)) w = (Ok a, w').
Proof.
  unfold try_except. destruct (write_step e self w) as [[a|ex] w']; eauto.
Qed.

(** C10. Every member's own value is a key of the value map, so the
    unsupported-format test of [__post_init__] never fires: whatever the
    inputs, construction either returns an archive or ends with the error
    that creating the backup root raised. *)
Theorem unsupported_format_is_unreachable :
  (∀ c : CompressionType, has_value (value c) = true)
  ∧ (∀ self, compressed self
             && negb (has_value (value (compression_type self))) = false)
  ∧ (∀ e self w,
       match (BackupArchive_post_init e self w).1 with
       | Ok _ => True
       | Raise ex =>
           dirs w !! backup_path self = None
           ∧ mkdir_error e (backup_path self) = Some ex
       end).
Proof.
  split; [apply has_value_of_member|]. split.
  { intros self. by rewrite has_value_of_member, andb_false_r. }
  intros e self w.
  destruct (mkdir_cases e (backup_path self) w)
    as [[? E]|[[? (ex & ? & E)]|(? & ? & E)]].
  - rewrite (post_init_after_mkdir _ _ _ _ E).
    by destruct (try_write_ok e (prepared self) w) as (a & w' & ->).
  - by rewrite (post_init_mkdir_raises _ _ _ _ E).
  - rewrite (post_init_after_mkdir _ _ _ _ E).
    by destruct (try_write_ok e (prepared self) (set_dirs (λ d, <[backup_path self:=∅]> d) w))
      as (a & w' & ->).
Qed.

(** ** The write step *)

(** C3. Once the backup root is there, an exception raised by the write
    step - by the compression or the copy, or by reading the size back -
    does not leave [__post_init__]: the archive is returned with its name
    and destination set and with no output size, and the state is the one
    the failed write left. *)
Theorem write_failure_is_swallowed e self w w1 ex w2 :
  mkdir e (backup_path self) w = (Ok tt, w1) →
  (if compressed self then _compress e (prepared self) w1 = (Raise ex, w2)
   else _move e (prepared self) w1 = (Raise ex, w2))
  ∨ (compressed self = true
     ∧ ∃ w', _compress e (prepared self) w1 = (Ok tt, w')
             ∧ measured e (prepared self) w' = (Raise ex, w2)) →
  ∃ a, BackupArchive_post_init e self w = (Ok a, w2)
       ∧ compressed_size a = None
       ∧ a = set_compressed_size None (prepared self).
Proof.
  intros Hm Hw. rewrite (post_init_after_mkdir _ _ _ _ Hm).
  exists (set_compressed_size None (prepared self)).
  split; [|done]. unfold try_except, write_step.
  assert (compressed (prepared self) = compressed self) as -> by done.
  destruct Hw as [Hw|(Hc & w' & Hw & Hs)].
  - destruct (compressed self); unfold bind at 1; by rewrite Hw.
  - rewrite Hc. unfold bind at 1. rewrite Hw. unfold bind at 1. by rewrite Hs.
Qed.

(** ** Names and destinations *)

Lemma str_length_app s t :
  String.length (s +:+ t) = (String.length s + String.length t)%nat.
Proof.
  induction s as [|c s IH]; [done|].
  change (S (String.length (s +:+ t)) = S (String.length s + String.length t)).
  by rewrite IH.
Qed.

Lemma parts_single s : (2 ≤ String.length s)%nat → parts s = [s].
Proof.
  intros H. unfold parts. case_bool_decide as E; [|done].
  destruct E as [-> | ->]; cbn in H; lia.
Qed.

Lemma length_strftime d : String.length (strftime_backup d) = 17%nat.
Proof. unfold strftime_backup. by rewrite !str_length_app. Qed.

Lemma length_backup_name self sfx :
  (2 ≤ String.length (_make_backup_name self +:+ sfx))%nat.
Proof.
  unfold _make_backup_name. rewrite !str_length_app, length_strftime. cbn. lia.
Qed.

Lemma digit_inj a b : digit a = digit b → (a mod 10 = b mod 10)%nat.
Proof.
  unfold digit.
  pose proof (Nat.mod_upper_bound a 10 ltac:(done)) as Ha.
  pose proof (Nat.mod_upper_bound b 10 ltac:(done)) as Hb.
  revert Ha Hb. generalize (a mod 10)%nat (b mod 10)%nat. intros x y Hx Hy.
  do 10 (destruct x as [|x]; [do 10 (destruct y as [|y]; [done || lia|]); lia|]).
  lia.
Qed.

Lemma digit_is_digit a (c : ascii) :
  c ∈ ["r"; "z"; "p"]%char → digit a ≠ c.
Proof.
  intros Hc E. unfold digit in E. revert E.
  generalize (a mod 10)%nat. intros x E.
  repeat (apply elem_of_cons in Hc as [->|Hc];
          [by do 10 (destruct x as [|x]; [done|])|]).
  by apply elem_of_nil in Hc.
Qed.

Lemma pad2_inj a b : (a < 100)%nat → (b < 100)%nat →
  digit a = digit b → digit (a / 10) = digit (b / 10) → a = b.
Proof.
  intros Ha Hb H1 H2. apply digit_inj in H1, H2.
  rewrite (Nat.mod_small (a / 10)), (Nat.mod_small (b / 10)) in H2
    by (apply Nat.Div0.div_lt_upper_bound; lia).
  rewrite (Nat.div_mod_eq a 10), (Nat.div_mod_eq b 10). lia.
Qed.

(** The characters of a destination file name, last first: the suffix,
    then the two digits of the seconds. *)
Lemma rev_chars_file_name sn d sfx :
  ∃ rest,
    rev (Str.chars (sn +:+ "-" +:+ strftime_backup d +:+ sfx))
    = rev (Str.chars sfx)
      ++ digit (second d) :: digit (second d / 10) :: rest.
Proof.
  unfold strftime_backup. rewrite !chars_app, !rev_app_distr.
  eexists. rewrite <- !app_assoc. f_equal.
Qed.

Lemma file_name_seconds sn1 d1 c1 ct1 sn2 d2 c2 ct2 :
  (second d1 < 60)%nat → (second d2 < 60)%nat →
  sn1 +:+ "-" +:+ strftime_backup d1 +:+ suffix c1 ct1
  = sn2 +:+ "-" +:+ strftime_backup d2 +:+ suffix c2 ct2 →
  second d1 = second d2.
Proof.
  intros H1 H2 E. apply (f_equal (λ s, rev (Str.chars s))) in E.
  destruct (rev_chars_file_name sn1 d1 (suffix c1 ct1)) as [r1 E1].
  destruct (rev_chars_file_name sn2 d2 (suffix c2 ct2)) as [r2 E2].
  cbn beta in E. rewrite E1, E2 in E. clear E1 E2.
  assert (∀ a (c : ascii), c ∈ ["r"; "z"; "p"]%char → digit a = c → False)
    as Hd by (intros a c Hc; by apply digit_is_digit).
  assert (∀ a (c : ascii), c ∈ ["r"; "z"; "p"]%char → c = digit a → False)
    as Hd' by (intros a c Hc Hq; by apply (Hd a c)).
  destruct c1, ct1, c2, ct2;
    repeat match type of E with
           | context [rev (Str.chars ?s)] =>
               let v := eval vm_compute in (rev (Str.chars s)) in
               change (rev (Str.chars s)) with v in E
           end;
    cbn [app] in E; simplify_eq;
    try (apply pad2_inj; (lia || done));
    exfalso;
    match goal with
    | H : ?c = digit ?a |- _ =>
        apply (Hd' a c); [solve [repeat constructor] | exact H]
    | H : digit ?a = ?c |- _ =>
        apply (Hd a c); [solve [repeat constructor] | exact H]
    end.
Qed.

Lemma SourceDirectory_init_fields e p calc src :
  SourceDirectory_init e p calc = Ok src →
  path src = p ∧ name src = _make_safe_name (path_name p)
  ∧ is_dir (lookup_path e p) = true.
Proof.
  unfold SourceDirectory_init.
  destruct (exists_ (lookup_path e p)), (is_dir (lookup_path e p));
    cbn; intros [= <-]; done.
Qed.

Lemma backup_file_set_size sz self :
  backup_file (set_compressed_size sz self) = backup_file self.
Proof. done. Qed.

Lemma post_init_ok_shape e self w a w' :
  BackupArchive_post_init e self w = (Ok a, w') →
  ∃ sz, a = set_compressed_size sz (prepared self).
Proof.
  destruct (mkdir_cases e (backup_path self) w)
    as [[? E]|[[? (ex & ? & E)]|(? & ? & E)]].
  2: { by rewrite (post_init_mkdir_raises _ _ _ _ E). }
  all: rewrite (post_init_after_mkdir _ _ _ _ E);
    unfold try_except, write_step;
    assert (compressed (prepared self) = compressed self) as -> by done;
    destruct (compressed self); unfold bind, ret;
    repeat match goal with
           | |- context [match ?c ?w with _ => _ end] =>
               destruct (c w) as [[?|?] ?]
           end;
    intros [= <- <-]; eauto.
Qed.

Lemma new_ok_names e src c bp bd ct w a w' :
  BackupArchive_new e src c bp None bd ct w = (Ok a, w') →
  backup_name a
  = Some (_make_safe_name (name src) +:+ "-" +:+ strftime_backup bd)
  ∧ backup_file a
    = Some (bp ++ [_make_safe_name (name src) +:+ "-" +:+ strftime_backup bd
                   +:+ suffix c ct]).
Proof.
  intros H. apply post_init_ok_shape in H as [sz ->]. split; [reflexivity|].
  rewrite backup_file_set_size, prepared_file. unfold joinpath.
  rewrite parts_single by apply length_backup_name.
  unfold _make_backup_name.
  cbn -[_make_safe_name strftime_backup suffix].
  by rewrite !str_app_assoc.
Qed.

(** C7. A build of a source made by [SourceDirectory] names the backup
    after the source's safe name, a dash and the construction time as
    [YYYY-MM-DD-HHMMSS]; its file is that name under the backup root, with
    [.tar], [.tar.gz] or [.zip] after it when compressed and nothing after
    it when not; so two builds at times whose seconds differ have
    different files. *)
Theorem backup_name_and_file_path e p calc src c bp bd ct w a w' :
  SourceDirectory_init e p calc = Ok src →
  BackupArchive_new e src c bp None bd ct w = (Ok a, w') →
  strftime_backup bd
  = pad4 (year bd) +:+ "-" +:+ pad2 (month bd) +:+ "-" +:+ pad2 (day bd)
    +:+ "-" +:+ pad2 (hour bd) +:+ pad2 (minute bd) +:+ pad2 (second bd)
  ∧ backup_name a = Some (name src +:+ "-" +:+ strftime_backup bd)
  ∧ backup_file a
    = Some (bp ++ [name src +:+ "-" +:+ strftime_backup bd
                   +:+ (if c
                        then "." +:+ match ct with
                                     | TAR => "tar"
                                     | TAR_GZ => "tar.gz"
                                     | ZIP => "zip"
                                     end
                        else EmptyString)])
  ∧ ∀ e2 p2 calc2 src2 c2 bp2 bd2 ct2 v a2 v',
      SourceDirectory_init e2 p2 calc2 = Ok src2 →
      BackupArchive_new e2 src2 c2 bp2 None bd2 ct2 v = (Ok a2, v') →
      valid_datetime bd → valid_datetime bd2 →
      second bd ≠ second bd2 →
      backup_file a ≠ backup_file a2.
Proof.
  intros Hs Ha. split; [done|].
  apply SourceDirectory_init_fields in Hs as (_ & Hn & _).
  apply new_ok_names in Ha as [Hbn Hbf].
  assert (_make_safe_name (name src) = name src) as Hid
    by (rewrite Hn; apply _make_safe_name_idem).
  rewrite Hid in Hbn, Hbf. split; [done|]. split.
  { rewrite Hbf. unfold suffix. by destruct ct. }
  intros e2 p2 calc2 src2 c2 bp2 bd2 ct2 v a2 v' Hs2 Ha2 Hv Hv2 Hne E.
  apply new_ok_names in Ha2 as [_ Hbf2].
  rewrite Hbf, Hbf2 in E. injection E as E.
  apply app_inj_tail in E as [_ E].
  apply Hne. eapply file_name_seconds; [| |exact E].
  - unfold valid_datetime in Hv. lia.
  - unfold valid_datetime in Hv2. lia.
Qed.

Lemma backup_name_and_file_path_witness :
  ∃ a, backup_name a = Some "Notes-2024-03-07-090542"
       ∧ backup_file a
         = Some ["home"; "u"; ".backups"; "Notes-2024-03-07-090542.zip"].
Proof.
  pose proof (backup_name_and_file_path (quiet notes_path notes) notes_path
                true notes_source true backups_path t0 ZIP empty_world) as H.
  edestruct H as (_ & Hn & Hf & _).
  - vm_compute. reflexivity.
  - vm_compute. reflexivity.
  - eexists. split; [exact Hn | exact Hf].
Defined.

Lemma write_failure_is_swallowed_witness :
  ∃ a w2, BackupArchive_post_init (read_only notes_path notes)
            (fields notes_source true ZIP) empty_world = (Ok a, w2)
          ∧ compressed_size a = None.
Proof.
  edestruct (write_failure_is_swallowed (read_only notes_path notes)
               (fields notes_source true ZIP) empty_world)
    as (a & Ha & Hn & _).
  - vm_compute. reflexivity.
  - left. vm_compute. reflexivity.
  - exists a. eexists. split; [exact Ha | exact Hn].
Defined.

(** ** The source tree *)

(** Induction over a tree, with the hypothesis for every entry of a
    directory and for what a link leads to. *)
Lemma node_ind' (P : node → Prop) :
  (∀ data, P (File data)) →
  (∀ es, Forall (λ x, P x.2) es → P (Dir es)) →
  P (Symlink None) →
  (∀ t, P t → P (Symlink (Some t))) →
  ∀ n, P n.
Proof.
  intros HF HD HL0 HL. fix IH 1. intros [data|es|[t|]].
  - apply HF.
  - apply HD. induction es as [|[nm c] es IHes]; constructor.
    + apply IH.
    + apply IHes.
  - apply HL, IH.
  - apply HL0.
Qed.

Lemma copied_of_dir n es : resolve n = Some (RDir es) → is_Some (copied n).
Proof.
  induction n as [data|es' _| |t IH] using node_ind'; cbn; intros H;
    by eauto.
Qed.

Lemma parent_snoc (p : Path) x : parent (p ++ [x]) = p.
Proof. apply removelast_last. Qed.

Lemma path_name_snoc (p : Path) x : path_name (p ++ [x]) = x.
Proof. apply last_last. Qed.

Lemma parts_cases s : parts s = [] ∨ parts s = [s].
Proof. unfold parts. case_bool_decide; auto. Qed.

(** ** Copy mode *)

Lemma exists_under_dir w bp nm :
  exists_under w bp nm = true → is_Some (dirs w !! bp).
Proof. unfold exists_under. destruct (dirs w !! bp); [eauto|done]. Qed.

Lemma mkdir_existing e p w : is_Some (dirs w !! p) → mkdir e p w = (Ok tt, w).
Proof.
  intros H. destruct (mkdir_cases e p w)
    as [[? E]|[[Hn _]|(Hn & _)]]; [done|..];
    rewrite Hn in H; by destruct H.
Qed.

Lemma post_init_skips_copy e self w :
  compressed self = false →
  exists_under w (backup_path self) (name (source self)) = true →
  BackupArchive_post_init e self w
  = (Ok (set_compressed_size None (prepared self)), w).
Proof.
  intros Hc Hx.
  rewrite (post_init_after_mkdir e self w w)
    by (apply mkdir_existing; by eapply exists_under_dir).
  unfold try_except, write_step.
  assert (compressed (prepared self) = false) as -> by done.
  unfold bind at 1. unfold _move. unfold bind at 1. unfold get.
  change (backup_path (prepared self)) with (backup_path self).
  change (source (prepared self)) with (source self).
  by rewrite Hx.
Qed.

(** After an uncompressed build whose copy was not refused at its
    destination, the destination exists. *)
Lemma destination_exists_after_copy e p calc src bp bn bd ct w a w1 :
  SourceDirectory_init e p calc = Ok src →
  open_error e (joinpath bp (name src)) = None →
  BackupArchive_new e src false bp bn bd ct w = (Ok a, w1) →
  exists_under w1 bp (name src) = true.
Proof.
  intros Hs Ho. unfold BackupArchive_new.
  set (self := {| source := src |}).
  apply SourceDirectory_init_fields in Hs as (Hp & _ & Hd).
  destruct (mkdir_cases e (backup_path self) w)
    as [[? E]|[[? (ex & ? & E)]|(? & ? & E)]].
  2: { by rewrite (post_init_mkdir_raises _ _ _ _ E). }
  all: rewrite (post_init_after_mkdir _ _ _ _ E);
    pose proof (mkdir_ok_dir _ _ _ _ E) as [m Hm];
    unfold try_except, write_step;
    assert (compressed (prepared self) = false) as -> by done;
    unfold bind at 1; unfold _move; unfold bind at 1; unfold get;
    change (backup_path (prepared self)) with bp in *;
    change (source (prepared self)) with src;
    change (backup_path self) with bp in *;
    match goal with
    | |- context [exists_under ?w0 ?b ?n] =>
        destruct (exists_under w0 b n) eqn:Hx;
        [by intros [= <- <-]|]
    end;
    unfold exists_under in Hx; rewrite Hm in Hx;
    destruct (parts_cases (name src)) as [Hq|Hq]; rewrite Hq in Hx;
      [done|];
    apply orb_false_elim in Hx as [_ Hx];
    unfold copytree; rewrite Hp;
    unfold is_dir in Hd;
    destruct (lookup_path e p) as [root|] eqn:Hl; [|done]; cbn in Hd;
    destruct (resolve root) as [[?|es]|] eqn:Hr; try done;
    destruct (copied_of_dir _ _ Hr) as [t Ht];
    cbn; rewrite Ht;
    unfold store, joinpath in *; rewrite Hq in *;
    rewrite Ho, parent_snoc, path_name_snoc;
    unfold bind, refuse, ret, get, raise, modify; rewrite Hm;
    destruct (dangling root); intros [= <- <-];
    unfold exists_under; cbn; rewrite lookup_insert_eq, Hq;
    apply orb_true_iff; right; apply bool_decide_eq_true;
    rewrite lookup_insert_eq; eauto.
Qed.

(** C6. An uncompressed build whose destination, the source's safe name
    under the backup root, already exists returns an archive without
    output size and leaves the state as it was, whatever the environment
    would have refused; and after an uncompressed build that made its
    copy, a second one against the same root and safe name does so. *)
Theorem uncompressed_build_skips_existing_destination :
  (∀ e src bp bn bd ct w,
     exists_under w bp (name src) = true →
     ∃ a, BackupArchive_new e src false bp bn bd ct w = (Ok a, w)
          ∧ compressed_size a = None)
  ∧ (∀ e p calc src bp bn bd ct w a w1,
       SourceDirectory_init e p calc = Ok src →
       open_error e (joinpath bp (name src)) = None →
       BackupArchive_new e src false bp bn bd ct w = (Ok a, w1) →
       ∀ e2 src2 bn2 bd2 ct2,
         name src2 = name src →
         ∃ a2, BackupArchive_new e2 src2 false bp bn2 bd2 ct2 w1 = (Ok a2, w1)
               ∧ compressed_size a2 = None).
Proof.
  assert (∀ e src bp bn bd ct w,
            exists_under w bp (name src) = true →
            ∃ a, BackupArchive_new e src false bp bn bd ct w = (Ok a, w)
                 ∧ compressed_size a = None) as Hskip.
  { intros e src bp bn bd ct w Hx. eexists. split.
    - unfold BackupArchive_new. by apply post_init_skips_copy.
    - done. }
  split; [exact Hskip|].
  intros e p calc src bp bn bd ct w a w1 Hs Ho Ha e2 src2 bn2 bd2 ct2 Hn.
  apply Hskip. rewrite Hn.
  eapply destination_exists_after_copy; eauto.
Qed.

Lemma uncompressed_build_skips_existing_destination_witness :
  (∃ a, BackupArchive_new (read_only notes_path notes) notes_source false
          backups_path None t1 ZIP copied_world = (Ok a, copied_world)
        ∧ compressed_size a = None)
  ∧ (∃ a a2,
       BackupArchive_new (quiet notes_path notes) notes_source false
         backups_path None t0 ZIP empty_world = (Ok a, copied_world)
       ∧ BackupArchive_new (quiet notes_path linked) notes_source false
           backups_path None t1 ZIP copied_world = (Ok a2, copied_world)).
Proof.
  split.
  - apply (proj1 uncompressed_build_skips_existing_destination).
    vm_compute. reflexivity.
  - assert (∃ a, BackupArchive_new (quiet notes_path notes) notes_source false
                   backups_path None t0 ZIP empty_world = (Ok a, copied_world))
      as [a Ha] by (eexists; vm_compute; reflexivity).
    assert (SourceDirectory_init (quiet notes_path notes) notes_path true
            = Ok notes_source) as Hs by (vm_compute; reflexivity).
    assert (open_error (quiet notes_path notes)
              (joinpath backups_path (name notes_source)) = None) as Ho
      by reflexivity.
    destruct (proj2 uncompressed_build_skips_existing_destination
                _ _ _ _ _ _ _ _ _ _ _ Hs Ho Ha
                (quiet notes_path linked) notes_source None t1 ZIP eq_refl)
      as (a2 & H2 & _).
    exists a, a2. split; [exact Ha | exact H2].
Defined.

(** ** Size of a source *)




Lemma rglob_cons rel nm c es :
  rglob rel (Dir ((nm, c) :: es))
  = (rel ++ [nm], c) :: rglob (rel ++ [nm]) c ++ rglob rel (Dir es).
Proof. done. Qed.



Lemma sizes_total_cons x l : sizes_total (x :: l) = counted x.2 + sizes_total l.
Proof. done. Qed.






(** ** Zip archives *)

Lemma rglob_paths n rel x :
  x ∈ rglob rel n → ∃ q, x.1 = rel ++ q ∧ q ≠ [].
Proof.
  revert rel. induction n as [data|es IH| |t _] using node_ind'; intros rel;
    try (intros H; by apply elem_of_nil in H).
  induction IH as [|[nm c] es Hc _ IHes]; [intros H; by apply elem_of_nil in H|].
  rewrite rglob_cons. intros H.
  apply elem_of_cons in H as [->|H]; [by exists [nm]|].
  apply elem_of_app in H as [H|H]; [|by apply IHes].
  destruct (Hc _ H) as (q & -> & _). exists (nm :: q).
  by rewrite <- app_assoc.
Qed.

Lemma walk_paths root x : x ∈ walk root → x.1 ≠ [].
Proof.
  unfold walk. destruct (resolve root) as [[?|es]|];
    try (intros H; by apply elem_of_nil in H).
  intros H. by destruct (rglob_paths _ _ _ H) as (q & -> & ?).
Qed.

Lemma str_rel_under sn rel :
  parts sn = [sn] → rel ≠ [] →
  str_rel (parts sn ++ rel) = sn +:+ "/" +:+ Str.join "/" rel.
Proof. intros -> H. by destruct rel. Qed.

Lemma zip_member_of sn x :
  parts sn = [sn] → x.1 ≠ [] → is_Some (resolve x.2) →
  zip_member (str_rel (parts sn ++ x.1)) x.2 = Ok (member_of sn x).
Proof.
  destruct x as [rel f]. cbn [fst snd].
  intros Hp Hq [r Hr]. rewrite str_rel_under by done.
  unfold zip_member, member_of, member_name, is_dir. cbn. rewrite !Hr.
  destruct r; [by rewrite str_app_empty_r|by rewrite str_app_assoc].
Qed.

Lemma zip_loop_quiet e root sn l :
  parts sn = [sn] →
  (∀ x, x ∈ l → x.1 ≠ [] ∧ stat_error e (root ++ x.1) = None
               ∧ is_Some (resolve x.2)) →
  zip_loop e root sn l = (member_of sn <$> l, None).
Proof.
  intros Hp. induction l as [|[rel f] l IH]; intros H; [done|].
  destruct (H (rel, f) ltac:(left)) as (Hq & Hs & Hr). cbn in Hq, Hs, Hr.
  cbn [zip_loop]. rewrite Hs.
  pose proof (zip_member_of sn (rel, f) Hp Hq Hr) as Hz. cbn in Hz.
  rewrite Hz, IH; [done|]. intros x Hx. apply H. by right.
Qed.

Lemma compress_zip e self w file m zs :
  compression_type self = ZIP →
  backup_file self = Some file →
  dirs w !! parent file = Some m →
  open_error e file = None →
  zip_loop e (path (source self)) (name (source self))
           (from_option walk [] (lookup_path e (path (source self))))
  = (zs, None) →
  ∃ w', _compress e self w = (Ok tt, w')
        ∧ entry_at w' file = Some (ZipFile zs).
Proof.
  intros Hc Hf Hm Ho Hz. unfold _compress. rewrite Hc, Hf, Hz.
  cbn [default from_option id]. unfold store. rewrite Ho. run_M. rewrite Hm. cbn.
  rewrite lookup_insert_eq. eexists. split; [done|].
  unfold entry_at. cbn. rewrite lookup_insert_eq. cbn.
  by rewrite lookup_insert_eq.
Qed.

Lemma measured_frame e self w r w' : measured e self w = (r, w') → w' = w.
Proof.
  unfold measured. run_M.
  destruct (entry_at w _) as [a|]; [|by intros [= _ <-]].
  destruct (archive_size e a); by intros [= _ <-].
Qed.

(** C5, as the code has it. Building a ZIP archive of a source with a
    non-empty safe name, when nothing is refused and no link dangles,
    stores at the backup file a zip with one member for every entry the
    recursive traversal finds, in traversal order and with no other
    member: a regular file (or a link to one) under
    [safe_name/<relative path>] with its data, and a directory (or a link
    to one) under [safe_name/<relative path>/] without data. *)
Theorem zip_holds_every_traversal_entry e p calc src bp bd w root :
  SourceDirectory_init e p calc = Ok src →
  lookup_path e p = Some root →
  name src ≠ EmptyString ∧ name src ≠ "." →
  mkdir_error e bp = None →
  (∀ q, open_error e q = None) →
  (∀ x, x ∈ walk root →
        stat_error e (p ++ x.1) = None ∧ is_Some (resolve x.2)) →
  ∃ a w' file,
    BackupArchive_new e src true bp None bd ZIP w = (Ok a, w')
    ∧ backup_file a = Some file
    ∧ entry_at w' file = Some (ZipFile (member_of (name src) <$> walk root))
    ∧ (∀ x, member_of (name src) x
            = {| filename := name src +:+ "/" +:+ Str.join "/" x.1
                             +:+ (if is_dir (Some x.2) then "/"
                                  else EmptyString);
                 zip_is_dir := is_dir (Some x.2);
                 file_data := match resolve x.2 with
                              | Some (RFile data) => data
                              | _ => EmptyString
                              end |}).
Proof.
  intros Hs Hl [Hn1 Hn2] Hmk Ho Hq.
  apply SourceDirectory_init_fields in Hs as (Hp & _ & _).
  assert (parts (name src) = [name src]) as Hparts.
  { unfold parts. case_bool_decide as E; [|done]. by destruct E. }
  unfold BackupArchive_new. set (self := {| source := src |}).
  assert (∃ w1 m, mkdir e (backup_path self) w = (Ok tt, w1)
                  ∧ dirs w1 !! bp = Some m) as (w1 & m & Hm & Hd).
  { destruct (mkdir_cases e (backup_path self) w)
      as [[? E]|[[? (ex & Hx & E)]|(? & ? & E)]].
    - destruct (mkdir_ok_dir _ _ _ _ E) as [m ?]. eauto.
    - cbn in Hx. congruence.
    - destruct (mkdir_ok_dir _ _ _ _ E) as [m ?]. eauto. }
  rewrite (post_init_after_mkdir _ _ _ _ Hm).
  pose proof (prepared_file self) as Hf. unfold joinpath in Hf.
  rewrite parts_single in Hf by apply length_backup_name.
  set (file := backup_path self ++ [_]) in Hf.
  assert (zip_loop e (path (source (prepared self)))
            (name (source (prepared self)))
            (from_option walk [] (lookup_path e (path (source (prepared self)))))
          = (member_of (name src) <$> walk root, None)) as Hz.
  { change (source (prepared self)) with src. rewrite Hp, Hl. cbn.
    apply zip_loop_quiet; [done|]. intros x Hx.
    destruct (Hq x Hx). split; [by eapply walk_paths|done]. }
  destruct (compress_zip e (prepared self) w1 file m
              (member_of (name src) <$> walk root) eq_refl Hf)
    as (w2 & Hc & He);
    [by (unfold file; rewrite parent_snoc)|apply Ho|exact Hz|].
  unfold try_except, write_step.
  assert (compressed (prepared self) = true) as -> by done.
  unfold bind at 1. rewrite Hc. unfold bind at 1.
  destruct (measured e (prepared self) w2) as [[sz|ex] w3] eqn:Hms;
    apply measured_frame in Hms as ->.
  - exists (set_compressed_size sz (prepared self)), w2, file. done.
  - exists (set_compressed_size None (prepared self)), w2, file. done.
Qed.

Lemma zip_holds_every_traversal_entry_witness :
  ∃ a w' file,
    BackupArchive_new (quiet notes_path notes) notes_source true backups_path
      None t0 ZIP empty_world = (Ok a, w')
    ∧ backup_file a = Some file
    ∧ entry_at w' file
      = Some (ZipFile (member_of "Notes" <$> walk notes)).
Proof.
  destruct (zip_holds_every_traversal_entry (quiet notes_path notes)
              notes_path true notes_source backups_path t0 empty_world notes)
    as (a & w' & file & H1 & H2 & H3 & _).
  - vm_compute. reflexivity.
  - reflexivity.
  - split; intros [=].
  - reflexivity.
  - intros q. reflexivity.
  - intros x Hx. split; [reflexivity|].
    vm_compute in Hx.
    repeat (apply elem_of_cons in Hx as [->|Hx]; [by eexists|]).
    by apply elem_of_nil in Hx.
  - exists a, w', file. split; [exact H1|]. split; [exact H2|exact H3].
Defined.

(** C5, as stated, fails: for a source with only [a.txt] and [sub/b.txt]
    the zip has three members, the directory [sub/] among them. *)
Lemma zip_of_notes_has_a_directory_member :
  ∃ zs,
    entry_at (BackupArchive_new (quiet notes_path notes) notes_source true
                backups_path None t0 ZIP empty_world).2
             (backups_path ++ ["Notes-2024-03-07-090542.zip"])
    = Some (ZipFile zs)
    ∧ filename <$> zs = ["Notes/a.txt"; "Notes/sub/"; "Notes/sub/b.txt"]
    ∧ length zs ≠ 2%nat
    ∧ length (filter (λ x, is_file x.2 = true) (walk notes)) = 2%nat.
Proof.
  eexists. split; [vm_compute; reflexivity|].
  split; [reflexivity|]. split; [by vm_compute|by vm_compute].
Qed.

(** ** The catalog *)

(** What [save_backup_metadata] does on a session with nothing pending,
    by what the database refuses. *)
Lemma save_backup_metadata_eq e self w s :
  sessions w !! session self = Some s → new s = [] → tx s = no_rows →
  save_backup_metadata e self w
  = match catalog w with
    | None => (Raise (SQLAlchemyError "no such table"), w)
    | Some c =>
        match insert_error e (ODirectory (dir_mod (source_dir self))) with
        | Some ex => (Raise ex, w)
        | None =>
            let i := next_id (d_id <$> directories c) in
            let b := backup_mod (backup_archive self) (Some i) in
            match insert_error e (OBackup b) with
            | Some ex => (Raise ex, w)
            | None =>
                match commit_error e with
                | Some ex => (Raise ex, w)
                | None =>
                    (Ok tt,
                     set_catalog
                       (Some {| directories :=
                                  directories c
                                  ++ [with_d_id i (dir_mod (source_dir self))];
                                backups :=
                                  backups c
                                  ++ [with_b_id (next_id (b_id <$> backups c)) b] |})
                       w)
                end
            end
        end
    end.
Proof.
  intros Hs Hn Ht. destruct w as [d cat l]. destruct s as [nw t cl].
  cbn in Hs, Hn, Ht. subst nw t.
  assert (session self < length l)%nat as Hlt by (by eapply lookup_lt_Some).
  pose proof (list_insert_id _ _ _ Hs) as Hid.
  unfold save_backup_metadata, Session_commit, Session_add, Session_flush,
    Session_rollback, the_session, put_session, set_sessions, set_catalog.
  unfold insert.
  destruct cat as [c|];
    [destruct (insert_error e (ODirectory (dir_mod (source_dir self))))
       as [ex1|] eqn:E1|];
    run_M; cbn; rewrite Hs; cbn;
    repeat first
      [ rewrite list_lookup_insert_eq by (rewrite ?length_insert; done)
      | rewrite list_insert_insert_eq
      | rewrite Hid
      | rewrite E1
      | rewrite app_nil_r
      | progress cbn ];
    try done.
  destruct (insert_error e (OBackup _)) as [ex2|] eqn:E2;
    [|destruct (commit_error e) as [ex3|] eqn:E3];
    repeat first
      [ rewrite list_lookup_insert_eq by (rewrite ?length_insert; done)
      | rewrite list_insert_insert_eq
      | rewrite Hid
      | progress cbn ];
    done.
Qed.

(** C2. On a session with nothing pending, [save_backup_metadata] is one
    unit: whenever it raises - the directory insert refused, the backup
    insert refused, or anything else - the state is exactly the one before,
    so neither table has a new row, and the error refused with is the one
    the caller gets; when it returns, each table has exactly one new row
    and the backup row's foreign key is the key generated for the
    directory row. *)
Theorem save_backup_metadata_is_atomic e self w s :
  sessions w !! session self = Some s → new s = [] → tx s = no_rows →
  (∀ ex w', save_backup_metadata e self w = (Raise ex, w') → w' = w)
  ∧ (∀ c ex,
       catalog w = Some c →
       insert_error e (ODirectory (dir_mod (source_dir self))) = Some ex →
       save_backup_metadata e self w = (Raise ex, w))
  ∧ (∀ c ex,
       catalog w = Some c →
       insert_error e (ODirectory (dir_mod (source_dir self))) = None →
       insert_error e
         (OBackup (backup_mod (backup_archive self)
                     (Some (next_id (d_id <$> directories c))))) = Some ex →
       save_backup_metadata e self w = (Raise ex, w))
  ∧ (∀ w',
       save_backup_metadata e self w = (Ok tt, w') →
       ∃ c d b,
         catalog w = Some c
         ∧ catalog w' = Some {| directories := directories c ++ [d];
                                backups := backups c ++ [b] |}
         ∧ d = with_d_id (next_id (d_id <$> directories c))
                 (dir_mod (source_dir self))
         ∧ b = with_b_id (next_id (b_id <$> backups c))
                 (backup_mod (backup_archive self) (d_id d))
         ∧ directory_id b = d_id d
         ∧ d_id d = Some (next_id (d_id <$> directories c))
         ∧ dirs w' = dirs w ∧ sessions w' = sessions w).
Proof.
  intros Hs Hn Ht. rewrite (save_backup_metadata_eq e self w s Hs Hn Ht).
  repeat split.
  - intros ex w'. destruct (catalog w) as [c|]; [|by intros [= _ <-]].
    destruct (insert_error e (ODirectory _)); [by intros [= _ <-]|]. cbn zeta.
    destruct (insert_error e (OBackup _)); [by intros [= _ <-]|].
    destruct (commit_error e); [by intros [= _ <-]|done].
  - intros c ex -> ->. done.
  - intros c ex -> -> H. cbn zeta. by rewrite H.
  - intros w'. destruct (catalog w) as [c|]; [|done].
    destruct (insert_error e (ODirectory _)); [done|]. cbn zeta.
    destruct (insert_error e (OBackup _)); [done|].
    destruct (commit_error e); [done|]. intros [= <-].
    eexists c, _, _. repeat split; reflexivity.
Qed.

Lemma save_backup_metadata_is_atomic_witness :
  save_backup_metadata (no_backup_rows notes_path notes) notes_manager
    ready_world
  = (Raise (SQLAlchemyError "constraint failed"), ready_world)
  ∧ ∃ w' c d b,
      save_backup_metadata (quiet notes_path notes) notes_manager ready_world
      = (Ok tt, w')
      ∧ catalog w' = Some {| directories := directories c ++ [d];
                             backups := backups c ++ [b] |}
      ∧ directory_id b = d_id d.
Proof.
  destruct (save_backup_metadata_is_atomic (no_backup_rows notes_path notes)
              notes_manager ready_world fresh_session eq_refl eq_refl eq_refl)
    as (_ & _ & H2 & _).
  destruct (save_backup_metadata_is_atomic (quiet notes_path notes)
              notes_manager ready_world fresh_session eq_refl eq_refl eq_refl)
    as (_ & _ & _ & H3).
  split.
  - apply (H2 no_rows); reflexivity.
  - destruct (H3 (save_backup_metadata (quiet notes_path notes) notes_manager
                    ready_world).2)
      as (c & d & b & _ & Hc & _ & _ & Hk & _).
    + vm_compute. reflexivity.
    + eexists _, c, d, b. split; [|split; [exact Hc|exact Hk]].
      vm_compute. reflexivity.
Defined.

(** ** What building an archive leaves alone *)

Lemma keeps_ret {A} (a : A) : keeps_catalog (ret a).
Proof. by intros w r w' [= _ <-]. Qed.

Lemma keeps_raise {A} ex : keeps_catalog (@raise A ex).
Proof. by intros w r w' [= _ <-]. Qed.

Lemma keeps_lift {A} (x : res A) : keeps_catalog (lift x).
Proof. by intros w r w' [= _ <-]. Qed.

Lemma keeps_refuse o : keeps_catalog (refuse o).
Proof. destruct o; [apply keeps_raise|apply keeps_ret]. Qed.

Lemma keeps_set_dirs f : keeps_catalog (modify (set_dirs f)).
Proof. by intros w r w' [= _ <-]. Qed.

Lemma keeps_bind {A B} (c : M A) (k : A → M B) :
  keeps_catalog c → (∀ a, keeps_catalog (k a)) → keeps_catalog (bind c k).
Proof.
  intros Hc Hk w r w'. unfold bind.
  destruct (c w) as [[a|ex] w1] eqn:E; destruct (Hc _ _ _ E) as [H1 H2].
  - intros H. destruct (Hk a _ _ _ H) as [-> ->]. done.
  - by intros [= _ <-].
Qed.

Lemma keeps_try {A} (c : M A) (h : exn → M A) :
  keeps_catalog c → (∀ ex, keeps_catalog (h ex)) →
  keeps_catalog (try_except c h).
Proof.
  intros Hc Hh w r w'. unfold try_except.
  destruct (c w) as [[a|ex] w1] eqn:E; destruct (Hc _ _ _ E) as [H1 H2].
  - by intros [= _ <-].
  - intros H. destruct (Hh ex _ _ _ H) as [-> ->]. done.
Qed.

Lemma keeps_store e p a : keeps_catalog (store e p a).
Proof.
  unfold store. apply keeps_bind; [apply keeps_refuse|]. intros _.
  intros w r w'. unfold bind, get.
  destruct (dirs w !! parent p); [apply keeps_set_dirs|apply keeps_raise].
Qed.

Lemma keeps_mkdir e p : keeps_catalog (mkdir e p).
Proof. intros w r w'. apply mkdir_frame. Qed.

Lemma keeps_compress e self : keeps_catalog (_compress e self).
Proof.
  unfold _compress. destruct (compression_type self).
  - apply keeps_bind; [apply keeps_store|]. intros _.
    destruct (lookup_path e _); [apply keeps_store|apply keeps_raise].
  - apply keeps_bind; [apply keeps_store|]. intros _.
    destruct (lookup_path e _); [apply keeps_store|apply keeps_raise].
  - apply keeps_bind; [apply keeps_store|]. intros _.
    destruct (zip_loop _ _ _ _) as [zs err].
    apply keeps_bind; [apply keeps_store|]. intros _. apply keeps_refuse.
Qed.

Lemma keeps_move e self : keeps_catalog (_move e self).
Proof.
  unfold _move. intros w r w'. unfold bind at 1. unfold get.
  destruct (exists_under w _ _); [apply keeps_ret|].
  unfold copytree. destruct (_ ≫= copied); [|apply keeps_raise].
  apply keeps_bind; [apply keeps_store|]. intros _.
  destruct (from_option _ _ _); [apply keeps_raise|apply keeps_ret].
Qed.

Lemma keeps_measured e self : keeps_catalog (measured e self).
Proof. intros w r w' H. by apply measured_frame in H as ->. Qed.

Lemma keeps_post_init e self : keeps_catalog (BackupArchive_post_init e self).
Proof.
  unfold BackupArchive_post_init.
  rewrite has_value_of_member, andb_false_r. cbn [negb].
  apply keeps_bind.
  { apply keeps_try; [apply keeps_mkdir|intros; apply keeps_raise]. }
  intros _. apply keeps_bind; [apply keeps_lift|]. intros file.
  cbn [compressed set_backup_file set_backup_name].
  destruct (compressed self); apply keeps_try;
    try (intros; apply keeps_ret).
  - apply keeps_bind; [apply keeps_compress|]. intros _.
    apply keeps_bind; [apply keeps_measured|]. intros; apply keeps_ret.
  - apply keeps_bind; [apply keeps_move|]. intros; apply keeps_ret.
Qed.

(** Construction returns an archive or ends with the error creating the
    backup root raised, the state untouched. *)
Lemma post_init_outcome e self w :
  (∃ a w', BackupArchive_post_init e self w = (Ok a, w'))
  ∨ (∃ ex, dirs w !! backup_path self = None
           ∧ mkdir_error e (backup_path self) = Some ex
           ∧ BackupArchive_post_init e self w = (Raise ex, w)).
Proof.
  destruct (mkdir_cases e (backup_path self) w)
    as [[? E]|[[? (ex & ? & E)]|(? & ? & E)]].
  - left. rewrite (post_init_after_mkdir _ _ _ _ E). apply try_write_ok.
  - right. exists ex. by rewrite (post_init_mkdir_raises _ _ _ _ E).
  - left. rewrite (post_init_after_mkdir _ _ _ _ E). apply try_write_ok.
Qed.

(** ** The manager and the entry point *)

Lemma BackupManager_init_eq e p calc c ct w :
  BackupManager_init e p calc c ct w
  = match SourceDirectory_init e p calc with
    | Raise ex => (Raise ex, add_session w)
    | Ok src =>
        match BackupArchive_init e src c ct (add_session w) with
        | (Ok arch, w') =>
            (Ok {| session := length (sessions w); source_dir := src;
                   backup_archive := arch |}, w')
        | (Raise ex, w') => (Raise ex, w')
        end
    end.
Proof.
  unfold BackupManager_init, DatabaseManager_init. run_M.
  fold (add_session w).
  destruct (SourceDirectory_init e p calc) as [src|ex]; [|done].
  by destruct (BackupArchive_init e src c ct (add_session w)) as [[?|?] ?].
Qed.

Lemma create_db_cases e w :
  (∃ ex, create_all_error e = Some ex ∧ create_db e w = (Raise ex, w))
  ∨ (create_all_error e = None
     ∧ create_db e w = (Ok tt, set_catalog (Some (rows (catalog w))) w)).
Proof.
  unfold create_db. run_M.
  destruct (create_all_error e) as [ex|]; [left; eauto|right].
  split; [done|]. destruct w as [d [c|] l]; done.
Qed.

Lemma close_eq e self w :
  close e self w
  = (Ok tt,
     match close_error e, sessions w !! session self with
     | None, Some s =>
         set_sessions (λ l, <[session self := closed_session]> l) w
     | _, _ => w
     end).
Proof.
  unfold close, Session_close, the_session, put_session. run_M.
  destruct (close_error e); [done|].
  by destruct (sessions w !! session self).
Qed.

(** The entry point never raises, and ends in the state of the last step
    it reached. *)
Lemma run_eq e p calc c ct w :
  run e p calc c ct w
  = (Ok tt,
     match create_db e (add_session w) with
     | (Raise _, w1) => w1
     | (Ok _, w1) =>
         match BackupManager_init e p calc c ct w1 with
         | (Raise _, w2) => w2
         | (Ok mgr, w2) =>
             match save_backup_metadata e mgr w2 with
             | (Raise _, w3) => w3
             | (Ok _, w3) => (close e mgr w3).2
             end
         end
     end).
Proof.
  unfold run, DatabaseManager_init. run_M. fold (add_session w).
  destruct (create_db e (add_session w)) as [[[]|ex] w1]; [|done].
  destruct (BackupManager_init e p calc c ct w1) as [[mgr|ex] w2]; [|done].
  destruct (save_backup_metadata e mgr w2) as [[[]|ex] w3]; [|done].
  rewrite close_eq. done.
Qed.

Lemma SourceDirectory_init_invalid e p calc :
  exists_ (lookup_path e p) = false ∨ is_dir (lookup_path e p) = false →
  SourceDirectory_init e p calc = Raise (not_a_directory p).
Proof.
  unfold SourceDirectory_init. intros [-> | ->]; [done|].
  by rewrite orb_true_r.
Qed.

(** C8. [SourceDirectory] raises its [ValueError] exactly when the path
    does not exist or is not a directory.  On such a path the manager's
    construction ends with that error having created nothing and inserted
    nothing, and a whole run ends with the directories of the state and the
    rows of both tables as they were. *)
Theorem invalid_source_aborts_before_any_write e p calc c ct w :
  is_ok (SourceDirectory_init e p calc)
  = exists_ (lookup_path e p) && is_dir (lookup_path e p)
  ∧ (is_dir (lookup_path e p) = true →
     ∃ src, SourceDirectory_init e p calc = Ok src)
  ∧ (exists_ (lookup_path e p) = false ∨ is_dir (lookup_path e p) = false →
     SourceDirectory_init e p calc = Raise (not_a_directory p)
     ∧ (∃ w', BackupManager_init e p calc c ct w
              = (Raise (not_a_directory p), w')
              ∧ dirs w' = dirs w ∧ catalog w' = catalog w)
     ∧ (∃ w', run e p calc c ct w = (Ok tt, w')
              ∧ dirs w' = dirs w
              ∧ rows (catalog w') = rows (catalog w))).
Proof.
  split; [|split].
  - unfold SourceDirectory_init.
    by destruct (exists_ (lookup_path e p)), (is_dir (lookup_path e p)).
  - intros Hd. unfold SourceDirectory_init. rewrite Hd.
    assert (exists_ (lookup_path e p) = true) as ->.
    { unfold is_dir, exists_ in *. by destruct (lookup_path e p ≫= resolve). }
    cbn. eauto.
  - intros H. pose proof (SourceDirectory_init_invalid e p calc H) as Hs.
    split; [done|]. split.
    + rewrite BackupManager_init_eq, Hs. eauto.
    + rewrite run_eq. eexists. split; [done|].
      destruct (create_db_cases e (add_session w))
        as [(ex & _ & ->)|[_ ->]]; [done|].
      rewrite BackupManager_init_eq, Hs. cbn.
      by destruct (catalog w).
Qed.

Lemma invalid_source_aborts_before_any_write_witness :
  SourceDirectory_init (quiet notes_path notes) ["does"; "not"; "exist"] true
  = Raise (not_a_directory ["does"; "not"; "exist"])
  ∧ ∃ w', run (quiet notes_path notes) ["does"; "not"; "exist"] true true ZIP
            ready_world = (Ok tt, w')
          ∧ dirs w' = dirs ready_world
          ∧ rows (catalog w') = rows (catalog ready_world).
Proof.
  destruct (invalid_source_aborts_before_any_write (quiet notes_path notes)
              ["does"; "not"; "exist"] true true ZIP ready_world)
    as (_ & _ & H).
  destruct H as (Hs & _ & Hr); [left; reflexivity|].
  split; [exact Hs|exact Hr].
Defined.

(** ** Sessions of a run *)

Lemma sessions_add_session w :
  sessions (add_session w) = sessions w ++ [fresh_session].
Proof. done. Qed.

Lemma BackupArchive_init_keeps e src c ct w r w' :
  BackupArchive_init e src c ct w = (r, w') →
  catalog w' = catalog w ∧ sessions w' = sessions w.
Proof. apply keeps_post_init. Qed.

(** The sessions a run leaves, once its schema step has succeeded: the
    entry point's own and the manager's, the latter closed or not. *)
Lemma run_sessions_after_schema e p calc c ct w w1 :
  catalog w1 = Some (rows (catalog w)) →
  sessions w1 = sessions w ++ [fresh_session] →
  dirs w1 = dirs w →
  let w' :=
    match BackupManager_init e p calc c ct w1 with
    | (Raise _, w2) => w2
    | (Ok mgr, w2) =>
        match save_backup_metadata e mgr w2 with
        | (Raise _, w3) => w3
        | (Ok _, w3) => (close e mgr w3).2
        end
    end in
  (∃ s2, sessions w' = sessions w ++ [fresh_session; s2])
  ∧ (is_dir (lookup_path e p) = true →
     is_Some (dirs w !! (home e ++ [".backups"]))
     ∨ mkdir_error e (home e ++ [".backups"]) = None →
     (∀ o, insert_error e o = None) →
     commit_error e = None → close_error e = None →
     sessions w' = sessions w ++ [fresh_session; closed_session]).
Proof.
  intros Hc Hs Hd. cbn zeta. rewrite BackupManager_init_eq.
  assert (sessions (add_session w1)
          = (sessions w ++ [fresh_session]) ++ [fresh_session]) as Hs1
    by (by rewrite sessions_add_session, Hs).
  assert (∀ x, (sessions w ++ [fresh_session]) ++ [x]
               = sessions w ++ [fresh_session; x]) as Hfl
    by (intros x; by rewrite <- app_assoc).
  destruct (SourceDirectory_init e p calc) as [src|ex] eqn:Esrc.
  2: { split; [exists fresh_session; by rewrite Hs1, Hfl|].
       intros Hdir. exfalso.
       unfold SourceDirectory_init in Esrc. rewrite Hdir in Esrc.
       assert (exists_ (lookup_path e p) = true) as Hx.
       { unfold is_dir, exists_ in *.
         by destruct (lookup_path e p ≫= resolve). }
       by rewrite Hx in Esrc. }
  destruct (BackupArchive_init e src c ct (add_session w1))
    as [[arch|ex] w2] eqn:Earch;
    pose proof (BackupArchive_init_keeps _ _ _ _ _ _ _ Earch) as [Hc2 Hs2].
  2: { split; [exists fresh_session; by rewrite Hs2, Hs1, Hfl|].
       intros _ Hmk. exfalso.
       destruct (post_init_outcome e
                   {| source := src; compressed := c;
                      backup_path := home e ++ [".backups"];
                      backup_name := None; backup_date := now e;
                      compression_type := ct; compressed_size := None;
                      backup_file := None |} (add_session w1))
         as [(a & w'' & E)|(ex' & Hn & He & E)];
         unfold BackupArchive_init, BackupArchive_new in Earch;
         [by rewrite E in Earch|].
       change (dirs w1 !! (home e ++ [".backups"]) = None) in Hn.
       change (mkdir_error e (home e ++ [".backups"]) = Some ex') in He.
       rewrite Hd in Hn.
       destruct Hmk as [[m Hm]|Hm]; congruence. }
  set (mgr := {| session := length (sessions w1) |}).
  assert (sessions w2 !! session mgr = Some fresh_session) as Hl.
  { rewrite Hs2, Hs1. cbn. rewrite Hs. apply list_lookup_middle. done. }
  rewrite (save_backup_metadata_eq e mgr w2 fresh_session Hl eq_refl eq_refl).
  change (catalog (add_session w1)) with (catalog w1) in Hc2.
  rewrite Hc2, Hc.
  assert (sessions w2 = sessions w ++ [fresh_session; fresh_session]) as Hopen
    by (by rewrite Hs2, Hs1, Hfl).
  destruct (insert_error e (ODirectory _)) as [ex1|] eqn:E1.
  { split; [by exists fresh_session|]. intros _ _ Hi. by rewrite Hi in E1. }
  cbn zeta.
  destruct (insert_error e (OBackup _)) as [ex2|] eqn:E2.
  { split; [by exists fresh_session|]. intros _ _ Hi. by rewrite Hi in E2. }
  destruct (commit_error e) as [ex3|] eqn:E3.
  { split; [by exists fresh_session|]. by intros _ _ _ ?. }
  rewrite close_eq. cbn [snd].
  change (sessions (set_catalog ?x w2)) with (sessions w2).
  rewrite Hl.
  destruct (close_error e) as [ex4|] eqn:E4.
  { split; [by exists fresh_session|]. by intros _ _ _ _ ?. }
  assert (sessions
            (set_sessions (λ l, <[session mgr := closed_session]> l)
               (set_catalog
                  (Some
                     {| directories :=
                          directories (rows (catalog w))
                          ++ [with_d_id
                                (next_id (d_id <$> directories (rows (catalog w))))
                                (dir_mod (source_dir mgr))];
                        backups :=
                          backups (rows (catalog w))
                          ++ [with_b_id
                                (next_id (b_id <$> backups (rows (catalog w))))
                                (backup_mod (backup_archive mgr)
                                   (Some (next_id
                                            (d_id <$> directories
                                                        (rows (catalog w))))))] |})
                  w2))
          = sessions w ++ [fresh_session; closed_session]) as Hfin.
  { cbn. rewrite Hs2, Hs1, Hs.
    rewrite insert_app_r_alt, Nat.sub_diag by done. cbn.
    by rewrite <- app_assoc. }
  split; [exists closed_session; exact Hfin|]. intros; exact Hfin.
Qed.

(** C9, as the code has it. A run never raises.  Once its schema step
    has succeeded it has made two sessions, the entry point's own and the
    manager's; and when the source is a directory, the backup root is
    there or can be created, and neither the database nor [close] refuses
    anything, the manager's session is closed at the end. *)
Theorem run_makes_two_sessions_and_closes_the_managers e p calc c ct w :
  ∃ w',
    run e p calc c ct w = (Ok tt, w')
    ∧ (create_all_error e = None →
       ∃ s2, sessions w' = sessions w ++ [fresh_session; s2])
    ∧ (create_all_error e = None →
       is_dir (lookup_path e p) = true →
       is_Some (dirs w !! (home e ++ [".backups"]))
       ∨ mkdir_error e (home e ++ [".backups"]) = None →
       (∀ o, insert_error e o = None) →
       commit_error e = None → close_error e = None →
       sessions w' = sessions w ++ [fresh_session; closed_session]).
Proof.
  rewrite run_eq. eexists. split; [done|].
  destruct (create_db_cases e (add_session w)) as [(ex & Hx & ->)|[_ ->]].
  { split; intros ?; congruence. }
  destruct (run_sessions_after_schema e p calc c ct w
              (set_catalog (Some (rows (catalog (add_session w))))
                 (add_session w)) eq_refl eq_refl eq_refl) as [H1 H2].
  split; intros _; [exact H1|exact H2].
Qed.

Lemma run_makes_two_sessions_and_closes_the_managers_witness :
  ∃ w',
    run (quiet notes_path notes) notes_path true true ZIP empty_world
    = (Ok tt, w')
    ∧ sessions w' = [fresh_session; closed_session].
Proof.
  destruct (run_makes_two_sessions_and_closes_the_managers
              (quiet notes_path notes) notes_path true true ZIP empty_world)
    as (w' & Hr & _ & Hs).
  exists w'. split; [exact Hr|].
  apply Hs; try reflexivity.
  right. reflexivity.
Defined.

(** C9, as stated, fails: a run on a missing source and a run whose
    backup row is refused both end with two sessions made and none
    closed, and a run that succeeds ends with two sessions made and only
    the manager's closed. *)
Lemma runs_do_not_release_one_session :
  sessions (main (quiet notes_path notes) empty_world).2
  = [fresh_session; fresh_session]
  ∧ sessions (run (no_backup_rows notes_path notes) notes_path true true ZIP
                empty_world).2
    = [fresh_session; fresh_session]
  ∧ sessions (run (quiet notes_path notes) notes_path true true ZIP
                empty_world).2
    = [fresh_session; closed_session]
  ∧ ¬ one_session_released empty_world
        (main (quiet notes_path notes) empty_world).2
  ∧ ¬ one_session_released empty_world
        (run (no_backup_rows notes_path notes) notes_path true true ZIP
           empty_world).2
  ∧ ¬ one_session_released empty_world
        (run (quiet notes_path notes) notes_path true true ZIP empty_world).2.
Proof.
  assert (∀ l : list Session, length l = 2%nat →
            ¬ ∃ s, l = [] ++ [s] ∧ closed s = true) as Hno.
  { intros l Hl (s & -> & _). done. }
  repeat split; try (by vm_compute); apply Hno; by vm_compute.
Qed.

(** * Further properties of the code *)

(** ** Safe names and formats *)

Lemma sub_replace_fixed c :
  sub_reserved (replace_space c) = c ↔ unsafe c = false.
Proof. destruct c as [[] [] [] [] [] [] [] []]; split; intros H; done. Qed.

Lemma str_length_map f s : String.length (Str.map f s) = String.length s.
Proof. induction s as [|c s IH]; cbn; [done|]. by rewrite IH. Qed.


(** X1. Sanitising a name twice is sanitising it once, a safe name has
    the length of the name it comes from, and the names sanitising leaves
    as they are are exactly those without a space or reserved character. *)
Theorem safe_name_is_idempotent_and_keeps_length (s : string) :
  _make_safe_name (_make_safe_name s) = _make_safe_name s
  ∧ String.length (_make_safe_name s) = String.length s
  ∧ (_make_safe_name s = s ↔ Forall (λ c, unsafe c = false) (Str.chars s)).
Proof.
  split; [apply _make_safe_name_idem|]. split.
  { unfold _make_safe_name. by rewrite !str_length_map. }
  unfold _make_safe_name. rewrite str_map_map.
  induction s as [|c s IH]; cbn; [by split; [constructor|]|].
  split.
  - intros [= Hc Hs]. constructor; [by apply sub_replace_fixed|by apply IH].
  - intros H. apply Forall_cons in H as [Hc Hs].
    apply sub_replace_fixed in Hc. apply IH in Hs. by rewrite Hc, Hs.
Qed.

(** X2. [has_value] accepts a string exactly when it is the value of one
    of the three members. *)
Theorem has_value_exactly_the_member_values (v : string) :
  has_value v = true ↔ ∃ c : CompressionType, v = value c.
Proof.
  split.
  - unfold has_value. intros H. apply bool_decide_eq_true in H as [c Hc].
    apply elem_of_list_to_map_2 in Hc. cbn in Hc.
    repeat (apply elem_of_cons in Hc as [[= -> _]|Hc];
            [first [by exists TAR | by exists TAR_GZ | by exists ZIP]|]).
    by apply elem_of_nil in Hc.
  - intros [c ->]. apply has_value_of_member.
Qed.

(** ** Inspecting a source *)

Lemma sum_sizes_ok e root l z :
  sum_sizes e root l = Ok z → z = sizes_total l.
Proof.
  revert z. induction l as [|[rel f] l IH]; intros z; cbn; [by intros [= <-]|].
  destruct (stat_error e (root ++ rel)); [done|].
  destruct (sum_sizes e root l) as [z'|]; [|done].
  intros [= <-]. by rewrite (IH z' eq_refl).
Qed.

Lemma counted_nonneg f : 0 ≤ counted f.
Proof.
  unfold counted, st_size. destruct (is_file f); [|done].
  destruct (resolve f) as [[?|?]|]; lia.
Qed.

Lemma sizes_total_nonneg l : 0 ≤ sizes_total l.
Proof.
  induction l as [|x l IH]; [done|]. rewrite sizes_total_cons.
  pose proof (counted_nonneg x.2). lia.
Qed.

(** X3. The size [_get_size] computes is never negative, and it is
    either the whole sum over the traversal or 0: a [stat] that raises
    part of the way never leaves a partial sum.  An empty directory has
    size 0. *)
Theorem size_is_the_whole_sum_or_zero e p root :
  0 ≤ _get_size e p root
  ∧ (_get_size e p root = sizes_total (walk root) ∨ _get_size e p root = 0)
  ∧ (resolve root = Some (RDir []) → _get_size e p root = 0).
Proof.
  unfold _get_size.
  destruct (sum_sizes e p (walk root)) as [z|ex] eqn:E.
  - apply sum_sizes_ok in E as ->. split; [apply sizes_total_nonneg|].
    split; [by left|]. intros H. unfold walk. by rewrite H.
  - split; [done|]. split; [by right|done].
Qed.

(** X4. For a path that leads to a directory, [SourceDirectory] never
    raises: it keeps the path, names the source by the sanitised final
    component, takes the modification time when it can be read and the
    current time cut to whole seconds when it cannot, and has a size
    exactly when asked to calculate one. *)
Theorem inspecting_a_directory_never_raises e p calc root es :
  lookup_path e p = Some root →
  resolve root = Some (RDir es) →
  ∃ src,
    SourceDirectory_init e p calc = Ok src
    ∧ path src = p
    ∧ name src = _make_safe_name (path_name p)
    ∧ Forall (λ c, unsafe c = false) (Str.chars (name src))
    ∧ (∀ d, mtime e p = Ok d → date src = d)
    ∧ (∀ ex, mtime e p = Raise ex →
         date src = replace_microsecond_0 (now e)
         ∧ microsecond (date src) = 0%nat
         ∧ (valid_datetime (now e) → valid_datetime (date src)))
    ∧ (calc = false → size src = None)
    ∧ (calc = true → size src = Some (_get_size e p root)).
Proof.
  intros Hl Hr. eexists. split.
  { unfold SourceDirectory_init, exists_, is_dir. rewrite Hl. cbn.
    rewrite Hr. cbn. reflexivity. }
  cbn. split; [done|]. split; [done|]. split.
  { unfold _make_safe_name. rewrite str_map_map, chars_map.
    apply Forall_fmap, Forall_forall. intros c _. apply sub_replace_safe. }
  split; [by intros d ->|]. split.
  - intros ex ->. split; [reflexivity|]. split; [reflexivity|].
    unfold valid_datetime, replace_microsecond_0.
    cbn [year month day hour minute second microsecond]. lia.
  - split; by intros ->.
Qed.

Lemma inspecting_a_directory_never_raises_witness :
  ∃ src,
    SourceDirectory_init (no_mtime notes_path notes) notes_path false = Ok src
    ∧ date src = replace_microsecond_0 t0
    ∧ size src = None.
Proof.
  destruct (inspecting_a_directory_never_raises (no_mtime notes_path notes)
              notes_path false notes _ eq_refl eq_refl)
    as (src & Hs & _ & _ & _ & _ & Hd & Hn & _).
  exists src. split; [exact Hs|]. split.
  - apply (Hd (OSError "Permission denied")). reflexivity.
  - apply Hn. reflexivity.
Defined.

(** ** Backup names under a custom name *)

Lemma new_ok_names_custom e src c bp bn bd ct w a w' :
  BackupArchive_new e src c bp bn bd ct w = (Ok a, w') →
  backup_name a = Some (base_name bn src +:+ "-" +:+ strftime_backup bd)
  ∧ backup_file a
    = Some (bp ++ [base_name bn src +:+ "-" +:+ strftime_backup bd
                   +:+ suffix c ct]).
Proof.
  intros H. apply post_init_ok_shape in H as [sz ->]. split; [reflexivity|].
  rewrite backup_file_set_size, prepared_file. unfold joinpath.
  rewrite parts_single by apply length_backup_name.
  unfold _make_backup_name, base_name.
  cbn -[_make_safe_name strftime_backup suffix or_else].
  by rewrite !str_app_assoc.
Qed.

Lemma unsafe_plain c : unsafe c = false → plain c.
Proof. intros H. repeat split; intros ->; done. Qed.

Lemma digit_plain n : plain (digit n).
Proof.
  unfold digit. generalize (n mod 10)%nat. intros x.
  do 10 (destruct x as [|x]; [by repeat split|]). by repeat split.
Qed.

Lemma strftime_plain d : Forall plain (Str.chars (strftime_backup d)).
Proof.
  unfold strftime_backup. rewrite !chars_app.
  repeat (apply Forall_app; split);
    repeat (apply Forall_cons; split);
    try apply Forall_nil; try apply digit_plain; by repeat split.
Qed.

Lemma suffix_plain c ct : Forall plain (Str.chars (suffix c ct)).
Proof.
  destruct c, ct;
    match goal with
    | |- Forall _ (Str.chars ?s) =>
        let v := eval vm_compute in (Str.chars s) in
        change (Str.chars s) with v
    end;
    repeat (apply Forall_cons; split); try apply Forall_nil;
    by repeat split.
Qed.

(** X5. Whatever name a build is given - none, an empty one, or one with
    separators and spaces in it - the backup name is the sanitised name (the
    source's own when none or an empty one is given), a dash and the time
    stamp, and the backup file is a direct child of the backup root whose
    name holds no separator and no space. *)
Theorem backup_file_is_a_child_of_the_backup_root
    e src c bp bn bd ct w a w' :
  BackupArchive_new e src c bp bn bd ct w = (Ok a, w') →
  ∃ f,
    backup_file a = Some (bp ++ [f])
    ∧ f = base_name bn src +:+ "-" +:+ strftime_backup bd +:+ suffix c ct
    ∧ backup_name a
      = Some (base_name bn src +:+ "-" +:+ strftime_backup bd)
    ∧ Forall plain (Str.chars f)
    ∧ (bn = None ∨ bn = Some EmptyString →
       base_name bn src = _make_safe_name (name src))
    ∧ (∀ s, bn = Some s → s ≠ EmptyString →
       base_name bn src = _make_safe_name s).
Proof.
  intros H. apply new_ok_names_custom in H as [Hn Hf].
  eexists. split; [exact Hf|]. split; [done|]. split; [done|]. split.
  - rewrite !chars_app. repeat (apply Forall_app; split).
    + unfold base_name, _make_safe_name. rewrite str_map_map, chars_map.
      apply Forall_fmap, Forall_forall. intros ch _.
      apply unsafe_plain, sub_replace_safe.
    + by repeat constructor.
    + apply strftime_plain.
    + apply suffix_plain.
  - split.
    + by intros [-> | ->].
    + intros s -> Hs. unfold base_name, or_else. by case_bool_decide.
Qed.

Lemma backup_file_is_a_child_of_the_backup_root_witness :
  ∃ a,
    backup_file a = Some (backups_path ++ ["my_docs_2024-2024-03-07-090542"])
    ∧ backup_name a = Some "my_docs_2024-2024-03-07-090542".
Proof.
  edestruct (backup_file_is_a_child_of_the_backup_root
               (quiet notes_path notes) notes_source false backups_path
               (Some "my/docs 2024") t0 ZIP empty_world)
    as (f & Hf & -> & Hn & _).
  - vm_compute. reflexivity.
  - eexists. split; [exact Hf|exact Hn].
Defined.

(** ** When two builds write to the same file *)

Lemma str_chars_inj s t : Str.chars s = Str.chars t → s = t.
Proof.
  revert t. induction s as [|c s IH]; intros [|d t] H; simplify_eq/=; auto.
  f_equal. by apply IH.
Qed.

Lemma length_chars s : length (Str.chars s) = String.length s.
Proof. induction s as [|c s IH]; cbn; [done|]. by rewrite IH. Qed.

(** A file name splits in one way into base name, stamp and suffix once
    the suffix and the length of the stamp are known. *)
Lemma file_name_inj sn1 t1 sn2 t2 u :
  String.length t1 = String.length t2 →
  sn1 +:+ "-" +:+ t1 +:+ u = sn2 +:+ "-" +:+ t2 +:+ u →
  sn1 = sn2 ∧ t1 = t2.
Proof.
  intros Hl H. apply (f_equal Str.chars) in H. rewrite !chars_app in H.
  rewrite !(app_assoc _ _ (Str.chars u)) in H.
  apply app_inv_tail in H.
  apply app_inj_2 in H as [H1 H2];
    [|by rewrite !length_app, !length_chars, Hl].
  apply app_inv_head in H2. split; by apply str_chars_inj.
Qed.

Lemma file_name_suffix sn1 d1 c1 ct1 sn2 d2 c2 ct2 :
  sn1 +:+ "-" +:+ strftime_backup d1 +:+ suffix c1 ct1
  = sn2 +:+ "-" +:+ strftime_backup d2 +:+ suffix c2 ct2 →
  suffix c1 ct1 = suffix c2 ct2.
Proof.
  intros E. apply (f_equal (λ s, rev (Str.chars s))) in E.
  destruct (rev_chars_file_name sn1 d1 (suffix c1 ct1)) as [r1 E1].
  destruct (rev_chars_file_name sn2 d2 (suffix c2 ct2)) as [r2 E2].
  cbn beta in E. rewrite E1, E2 in E. clear E1 E2.
  assert (∀ a (c : ascii), c ∈ ["r"; "z"; "p"]%char → digit a = c → False)
    as Hd by (intros a c Hc; by apply digit_is_digit).
  assert (∀ a (c : ascii), c ∈ ["r"; "z"; "p"]%char → c = digit a → False)
    as Hd' by (intros a c Hc Hq; by apply (Hd a c)).
  destruct c1, ct1, c2, ct2; try reflexivity;
    repeat match type of E with
           | context [rev (Str.chars ?s)] =>
               let v := eval vm_compute in (rev (Str.chars s)) in
               change (rev (Str.chars s)) with v in E
           end;
    cbn [app] in E; simplify_eq;
    exfalso;
    match goal with
    | H : ?c = digit ?a |- _ =>
        apply (Hd' a c); [solve [repeat constructor] | exact H]
    | H : digit ?a = ?c |- _ =>
        apply (Hd a c); [solve [repeat constructor] | exact H]
    end.
Qed.

Lemma pad4_inj a b : (a < 100 * 100)%nat → (b < 100 * 100)%nat →
  digit a = digit b → digit (a / 10) = digit (b / 10) →
  digit (a / 100) = digit (b / 100) → digit (a / 1000) = digit (b / 1000) →
  a = b.
Proof.
  intros Ha Hb H0 H1 H2 H3. apply digit_inj in H0, H1, H2, H3.
  pose proof (Nat.div_mod_eq a 10). pose proof (Nat.div_mod_eq b 10).
  pose proof (Nat.div_mod_eq (a / 10) 10).
  pose proof (Nat.div_mod_eq (b / 10) 10).
  pose proof (Nat.div_mod_eq (a / 100) 10).
  pose proof (Nat.div_mod_eq (b / 100) 10).
  pose proof (Nat.div_mod_eq (a / 1000) 10).
  pose proof (Nat.div_mod_eq (b / 1000) 10).
  assert (a / 10 / 10 = a / 100)%nat by (by rewrite Nat.Div0.div_div).
  assert (b / 10 / 10 = b / 100)%nat by (by rewrite Nat.Div0.div_div).
  assert (a / 100 / 10 = a / 1000)%nat by (by rewrite Nat.Div0.div_div).
  assert (b / 100 / 10 = b / 1000)%nat by (by rewrite Nat.Div0.div_div).
  assert (a / 1000 / 10 = 0)%nat
    by (rewrite Nat.Div0.div_div; apply Nat.div_small; lia).
  assert (b / 1000 / 10 = 0)%nat
    by (rewrite Nat.Div0.div_div; apply Nat.div_small; lia).
  lia.
Qed.

Lemma strftime_inj d1 d2 :
  valid_datetime d1 → valid_datetime d2 →
  strftime_backup d1 = strftime_backup d2 → same_second d1 d2.
Proof.
  unfold valid_datetime. intros V1 V2 H.
  assert (9999 < 100 * 100)%nat as Hy
    by (apply Nat.ltb_lt; vm_compute; reflexivity).
  apply (f_equal Str.chars) in H. unfold strftime_backup in H.
  rewrite !chars_app in H.
  cbn [Str.chars pad2 pad4 app] in H. simplify_eq.
  unfold same_second. repeat split;
    first [ apply pad4_inj; (lia || done) | apply pad2_inj; (lia || done) ].
Qed.

Lemma same_second_strftime d1 d2 :
  same_second d1 d2 → strftime_backup d1 = strftime_backup d2.
Proof.
  intros (Hy & Hm & Hd & Hh & Hmi & Hs). unfold strftime_backup.
  by rewrite Hy, Hm, Hd, Hh, Hmi, Hs.
Qed.

Lemma suffix_eq c1 ct1 c2 ct2 :
  suffix c1 ct1 = suffix c2 ct2 ↔ c1 = c2 ∧ (c1 = true → ct1 = ct2).
Proof.
  destruct c1, ct1, c2, ct2; split;
    try (intros H; vm_compute in H; discriminate);
    try (intros [H1 H2]; first [discriminate | by specialize (H2 eq_refl)]);
    intros; try done; split; done.
Qed.

(** X6. Two builds with valid construction times write to the same file
    exactly when they have the same backup root, the same sanitised base
    name, construction times that agree down to the second, the same
    mode, and - when compressed - the same format.  Microseconds never
    tell two builds apart. *)
Theorem builds_share_a_file_exactly_when
    e1 src1 c1 bp1 bn1 bd1 ct1 w1 a1 w1'
    e2 src2 c2 bp2 bn2 bd2 ct2 w2 a2 w2' :
  BackupArchive_new e1 src1 c1 bp1 bn1 bd1 ct1 w1 = (Ok a1, w1') →
  BackupArchive_new e2 src2 c2 bp2 bn2 bd2 ct2 w2 = (Ok a2, w2') →
  valid_datetime bd1 → valid_datetime bd2 →
  backup_file a1 = backup_file a2
  ↔ bp1 = bp2 ∧ base_name bn1 src1 = base_name bn2 src2
    ∧ same_second bd1 bd2 ∧ c1 = c2 ∧ (c1 = true → ct1 = ct2).
Proof.
  intros H1 H2 V1 V2.
  apply new_ok_names_custom in H1 as [_ ->].
  apply new_ok_names_custom in H2 as [_ ->]. split.
  - intros [= E]. apply app_inj_tail in E as [-> E]. split; [done|].
    pose proof (file_name_suffix _ _ _ _ _ _ _ _ E) as Hsfx.
    rewrite Hsfx in E.
    apply file_name_inj in E as [Hb Ht]; [|by rewrite !length_strftime].
    split; [done|]. split; [by apply strftime_inj|]. by apply suffix_eq.
  - intros (-> & Hb & Hs & Hc). apply suffix_eq in Hc.
    by rewrite Hb, (same_second_strftime _ _ Hs), Hc.
Qed.

Lemma builds_share_a_file_exactly_when_witness :
  ∃ a1 a2 w1' w2',
    BackupArchive_new (quiet notes_path notes) notes_source true backups_path
      None t0 ZIP empty_world = (Ok a1, w1')
    ∧ BackupArchive_new (quiet notes_path notes) notes_source true
        backups_path None (replace_microsecond_0 t0) ZIP w1' = (Ok a2, w2')
    ∧ backup_file a1 = backup_file a2.
Proof.
  assert (∃ a1 w1', BackupArchive_new (quiet notes_path notes) notes_source
                      true backups_path None t0 ZIP empty_world = (Ok a1, w1'))
    as (a1 & w1' & H1) by (eexists _, _; vm_compute; reflexivity).
  assert (∃ a2 w2', BackupArchive_new (quiet notes_path notes) notes_source
                      true backups_path None (replace_microsecond_0 t0) ZIP
                      w1' = (Ok a2, w2')) as (a2 & w2' & H2).
  { destruct (post_init_outcome (quiet notes_path notes)
                {| source := notes_source; compressed := true;
                   backup_path := backups_path; backup_name := None;
                   backup_date := replace_microsecond_0 t0;
                   compression_type := ZIP; compressed_size := None;
                   backup_file := None |} w1')
      as [(a & w'' & E)|(ex & _ & He & _)]; [eauto|discriminate]. }
  exists a1, a2, w1', w2'. split; [exact H1|]. split; [exact H2|].
  apply (builds_share_a_file_exactly_when _ _ _ _ _ _ _ _ _ _
           _ _ _ _ _ _ _ _ _ _ H1 H2).
  - unfold valid_datetime. repeat split; apply Nat.leb_le; by vm_compute.
  - unfold valid_datetime. repeat split; apply Nat.leb_le; by vm_compute.
  - repeat split.
Defined.

(** ** Failing to create the backup root *)

Lemma mkdir_refused e p w ex :
  dirs w !! p = None → mkdir_error e p = Some ex →
  mkdir e p w = (Raise ex, w).
Proof.
  intros Hd He. destruct (mkdir_cases e p w)
    as [[[? Hs] _]|[[_ (ex' & He' & E)]|(_ & He' & _)]]; congruence.
Qed.

(** X7. When the backup root is not there and cannot be created, the
    error of [mkdir] leaves [__post_init__] - unlike an error of the write
    step - with the state untouched; the manager's construction ends with
    it, and a run ends with no directory created and no row inserted. *)
Theorem failing_to_create_the_backup_root_is_fatal
    e p calc src c ct w ex :
  SourceDirectory_init e p calc = Ok src →
  dirs w !! (home e ++ [".backups"]) = None →
  mkdir_error e (home e ++ [".backups"]) = Some ex →
  BackupArchive_init e src c ct w = (Raise ex, w)
  ∧ BackupManager_init e p calc c ct w = (Raise ex, add_session w)
  ∧ ∃ w', run e p calc c ct w = (Ok tt, w')
          ∧ dirs w' = dirs w ∧ rows (catalog w') = rows (catalog w).
Proof.
  intros Hs Hd He.
  assert (∀ v, dirs v = dirs w → BackupArchive_init e src c ct v = (Raise ex, v))
    as Hraise.
  { intros v Hv. unfold BackupArchive_init, BackupArchive_new.
    apply post_init_mkdir_raises, mkdir_refused; [by rewrite Hv|done]. }
  split; [by apply Hraise|]. split.
  - rewrite BackupManager_init_eq, Hs. by rewrite Hraise.
  - rewrite run_eq. eexists. split; [done|].
    destruct (create_db_cases e (add_session w))
      as [(ex' & _ & ->)|[_ ->]]; [done|].
    rewrite BackupManager_init_eq, Hs. rewrite Hraise by done. cbn.
    by destruct (catalog w).
Qed.

Lemma failing_to_create_the_backup_root_is_fatal_witness :
  BackupArchive_init (no_mkdir notes_path notes) notes_source true ZIP
    empty_world
  = (Raise (OSError "Permission denied"), empty_world).
Proof.
  apply (failing_to_create_the_backup_root_is_fatal
           (no_mkdir notes_path notes) notes_path true notes_source true ZIP
           empty_world (OSError "Permission denied")).
  - vm_compute. reflexivity.
  - reflexivity.
  - reflexivity.
Defined.

(** ** What a compressed build stores and reports *)

Lemma measured_eq e self w :
  measured e self w
  = (match entry_at w (default [] (backup_file self)) with
     | Some art =>
         match archive_size e art with
         | Ok z => Ok (Some z)
         | Raise ex => Raise ex
         end
     | None => Ok None
     end, w).
Proof.
  unfold measured. run_M.
  destruct (entry_at w _) as [art|]; [|done]. by destruct (archive_size e art).
Qed.




(** X9. Whatever happens during a build, an output size it reports is
    the size of an archive that is at the backup file when the build
    returns; an uncompressed build never reports one. *)
Theorem a_reported_size_is_the_size_of_the_backup_file e self w a w' :
  BackupArchive_post_init e self w = (Ok a, w') →
  (compressed self = false → compressed_size a = None)
  ∧ (∀ z, compressed_size a = Some z →
       compressed self = true
       ∧ ∃ file art,
           backup_file a = Some file
           ∧ entry_at w' file = Some art
           ∧ archive_size e art = Ok z).
Proof.
  destruct (mkdir_cases e (backup_path self) w)
    as [[? E]|[[? (ex & ? & E)]|(? & ? & E)]].
  2: { by rewrite (post_init_mkdir_raises _ _ _ _ E). }
  all: rewrite (post_init_after_mkdir _ _ _ _ E);
    unfold try_except, write_step;
    assert (compressed (prepared self) = compressed self) as -> by done;
    destruct (compressed self); unfold bind at 1;
    match goal with
    | |- context [match ?c ?v with _ => _ end] =>
        destruct (c v) as [[[]|?] w2]
    end;
    try (unfold ret; intros [= <- <-]; split; [done|]; intros z; done);
    unfold bind at 1; rewrite measured_eq;
    pose proof (prepared_file self) as Hf;
    destruct (backup_file (prepared self)) as [file|] eqn:Ef; try done;
    cbn [default from_option id];
    destruct (entry_at w2 file) as [art|] eqn:Ee;
    [destruct (archive_size e art) as [z'|] eqn:Ez|];
    unfold ret; intros [= <- <-]; (split; [done|]); intros z; try done;
    intros [= <-]; split; [done|]; exists file, art; done.
Qed.

Lemma a_reported_size_is_the_size_of_the_backup_file_witness :
  ∃ a w' file art,
    BackupArchive_post_init (quiet notes_path notes)
      (fields notes_source true ZIP) empty_world = (Ok a, w')
    ∧ compressed_size a = Some 77
    ∧ backup_file a = Some file
    ∧ entry_at w' file = Some art.
Proof.
  assert (∃ a w', BackupArchive_post_init (quiet notes_path notes)
                    (fields notes_source true ZIP) empty_world = (Ok a, w')
                  ∧ compressed_size a = Some 77) as (a & w' & H & Hz)
    by (eexists _, _; split; vm_compute; reflexivity).
  destruct (a_reported_size_is_the_size_of_the_backup_file _ _ _ _ _ H)
    as [_ H2].
  destruct (H2 77 Hz) as (_ & file & art & Hf & He & _).
  exists a, w', file, art. split; [exact H|]. split; [exact Hz|].
  split; [exact Hf|exact He].
Defined.

(** ** A ZIP build that fails part of the way *)

Lemma zip_loop_dangling e root sn l x :
  x ∈ l → resolve x.2 = None →
  ∃ ex, (zip_loop e root sn l).2 = Some ex.
Proof.
  intros Hx Hr. induction l as [|[rel f] l IH]; [by apply elem_of_nil in Hx|].
  cbn [zip_loop]. destruct (stat_error e (root ++ rel)) as [ex|]; [eauto|].
  unfold zip_member.
  apply elem_of_cons in Hx as [->|Hx].
  - cbn in Hr. rewrite Hr. eauto.
  - destruct (IH Hx) as [ex Hex].
    destruct (resolve f) as [[?|?]|]; [| |eauto];
      destruct (zip_loop e root sn l) as [zs err]; cbn in *; eauto.
Qed.

Lemma zip_loop_short e root sn l :
  (zip_loop e root sn l).2 ≠ None →
  (length (zip_loop e root sn l).1 < length l)%nat.
Proof.
  induction l as [|[rel f] l IH]; [done|]. cbn [zip_loop].
  destruct (stat_error e (root ++ rel)); [cbn; lia|].
  destruct (zip_member _ f); [|cbn; lia].
  destruct (zip_loop e root sn l) as [zs err]. cbn in *. intros H.
  specialize (IH H). lia.
Qed.

Lemma compress_zip_fails e self w file m zs ex :
  compression_type self = ZIP →
  backup_file self = Some file →
  dirs w !! parent file = Some m →
  open_error e file = None →
  zip_loop e (path (source self)) (name (source self))
           (from_option walk [] (lookup_path e (path (source self))))
  = (zs, Some ex) →
  ∃ w', _compress e self w = (Raise ex, w')
        ∧ entry_at w' file = Some (ZipFile zs).
Proof.
  intros Hc Hf Hm Ho Hz. unfold _compress. rewrite Hc, Hf, Hz.
  cbn [default from_option id]. unfold store. rewrite Ho.
  run_M. rewrite Hm. cbn.
  rewrite lookup_insert_eq. eexists. split; [done|].
  unfold entry_at. cbn. rewrite lookup_insert_eq. cbn.
  by rewrite lookup_insert_eq.
Qed.

(** X10. A ZIP build of a source with a dangling link below it, when
    nothing is refused, still returns an archive, with no output size; the
    zip it has started stays at the backup file, holding only the members
    written before the failure - fewer than the traversal has entries. *)
Theorem a_failed_zip_leaves_a_partial_file
    e p calc src bp bn bd w root x :
  SourceDirectory_init e p calc = Ok src →
  lookup_path e p = Some root →
  x ∈ walk root → resolve x.2 = None →
  mkdir_error e bp = None →
  (∀ q, open_error e q = None) →
  ∃ a w' file zs,
    BackupArchive_new e src true bp bn bd ZIP w = (Ok a, w')
    ∧ compressed_size a = None
    ∧ backup_file a = Some file
    ∧ entry_at w' file = Some (ZipFile zs)
    ∧ (length zs < length (walk root))%nat.
Proof.
  intros Hs Hl Hx Hr Hmk Ho.
  apply SourceDirectory_init_fields in Hs as (Hp & _ & _).
  unfold BackupArchive_new. set (self := {| source := src |}).
  assert (∃ w1 m, mkdir e (backup_path self) w = (Ok tt, w1)
                  ∧ dirs w1 !! bp = Some m) as (w1 & m & Hm & Hd).
  { destruct (mkdir_cases e (backup_path self) w)
      as [[? E]|[[? (ex & Hx' & E)]|(? & ? & E)]].
    - destruct (mkdir_ok_dir _ _ _ _ E) as [m ?]. eauto.
    - cbn in Hx'. congruence.
    - destruct (mkdir_ok_dir _ _ _ _ E) as [m ?]. eauto. }
  rewrite (post_init_after_mkdir _ _ _ _ Hm).
  pose proof (prepared_file self) as Hf. unfold joinpath in Hf.
  rewrite parts_single in Hf by apply length_backup_name.
  set (file := backup_path self ++ [_]) in Hf.
  destruct (zip_loop_dangling e p (name src) (walk root) x Hx Hr) as [ex Hex].
  pose proof (zip_loop_short e p (name src) (walk root)) as Hshort.
  destruct (zip_loop e p (name src) (walk root)) as [zs err] eqn:Hz.
  cbn in Hex, Hshort. subst err.
  destruct (compress_zip_fails e (prepared self) w1 file m zs ex eq_refl Hf)
    as (w2 & Hc & He);
    [by (unfold file; rewrite parent_snoc)|apply Ho
    |by (change (source (prepared self)) with src; rewrite Hp, Hl)|].
  unfold try_except, write_step.
  assert (compressed (prepared self) = true) as -> by done.
  unfold bind at 1. rewrite Hc.
  exists (set_compressed_size None (prepared self)), w2, file, zs.
  split; [done|]. split; [done|]. split; [done|]. split; [done|].
  by apply Hshort.
Qed.

Lemma a_failed_zip_leaves_a_partial_file_witness :
  ∃ src a w',
    SourceDirectory_init (quiet notes_path broken) notes_path false = Ok src
    ∧ BackupArchive_new (quiet notes_path broken) src true
        backups_path None t0 ZIP empty_world = (Ok a, w')
    ∧ compressed_size a = None
    ∧ entry_at w' (backups_path ++ ["Notes-2024-03-07-090542.zip"])
      = Some (ZipFile [{| filename := "Notes/a.txt"; zip_is_dir := false;
                          file_data := "hello" |}]).
Proof.
  assert (∃ src, SourceDirectory_init (quiet notes_path broken) notes_path
                   false = Ok src) as [src Hs]
    by (eexists; vm_compute; reflexivity).
  destruct (a_failed_zip_leaves_a_partial_file (quiet notes_path broken)
              notes_path false src backups_path None t0 empty_world
              broken (["l"], Symlink None) Hs eq_refl)
    as (a & w' & file & zs & H1 & H2 & _).
  - vm_compute. right. left.
  - reflexivity.
  - reflexivity.
  - done.
  - exists src, a, w'. split; [exact Hs|]. split; [exact H1|].
    split; [exact H2|].
    vm_compute in Hs. injection Hs as <-.
    vm_compute in H1. injection H1 as _ <-. reflexivity.
Defined.

(** ** The first copy *)








(** ** What a build leaves alone *)













(** ** Closing and the schema *)

(** X13. [close] never raises, whether the session can be closed or not.
    It changes nothing but the manager's own session, which it leaves
    closed with nothing pending when closing is not refused; when closing
    is refused the state is as before; and closing again changes nothing
    more. *)
Theorem close_never_raises_and_is_idempotent e self w :
  ∃ w1,
    close e self w = (Ok tt, w1)
    ∧ dirs w1 = dirs w ∧ catalog w1 = catalog w
    ∧ length (sessions w1) = length (sessions w)
    ∧ (∀ h, h ≠ session self → sessions w1 !! h = sessions w !! h)
    ∧ (close_error e = None → is_Some (sessions w !! session self) →
       sessions w1 !! session self = Some closed_session)
    ∧ (∀ ex, close_error e = Some ex → w1 = w)
    ∧ close e self w1 = (Ok tt, w1).
Proof.
  rewrite close_eq. eexists. split; [done|].
  destruct (close_error e) as [ex|] eqn:Ec.
  { repeat split; try done. by rewrite close_eq, Ec. }
  destruct (sessions w !! session self) as [s|] eqn:Es.
  2: { repeat split; try done; try (by intros _ [? ?]).
       by rewrite close_eq, Ec, Es. }
  pose proof (lookup_lt_Some _ _ _ Es) as Hlt.
  repeat split; try done.
  - cbn. by rewrite length_insert.
  - intros h Hh. cbn. by rewrite list_lookup_insert_ne.
  - intros _ _. cbn. by rewrite list_lookup_insert_eq.
  - rewrite close_eq, Ec. cbn.
    rewrite list_lookup_insert_eq by done.
    unfold set_sessions. cbn. by rewrite list_insert_insert_eq.
Qed.

(** X14. [create_db] either raises what [create_all] raised, leaving the
    state as it was, or leaves the tables in place with exactly the rows
    they had - none when they were missing - and nothing else changed;
    running it again then changes nothing. *)
Theorem create_db_keeps_rows_and_is_idempotent e w :
  (∀ ex, create_all_error e = Some ex → create_db e w = (Raise ex, w))
  ∧ (create_all_error e = None →
     ∃ w1,
       create_db e w = (Ok tt, w1)
       ∧ is_Some (catalog w1)
       ∧ rows (catalog w1) = rows (catalog w)
       ∧ dirs w1 = dirs w ∧ sessions w1 = sessions w
       ∧ create_db e w1 = (Ok tt, w1)).
Proof.
  split.
  - intros ex Hex.
    destruct (create_db_cases e w) as [(ex' & He & ->)|[He _]]; congruence.
  - intros Hn.
    destruct (create_db_cases e w) as [(ex' & He & _)|[_ ->]]; [congruence|].
    eexists. split; [done|]. split; [cbn; eauto|]. split; [done|].
    split; [done|]. split; [done|].
    destruct (create_db_cases e (set_catalog (Some (rows (catalog w))) w))
      as [(ex' & He & _)|[_ ->]]; [congruence|]. done.
Qed.

Lemma create_db_keeps_rows_and_is_idempotent_witness :
  ∃ w1,
    create_db (quiet notes_path notes) empty_world = (Ok tt, w1)
    ∧ rows (catalog w1) = no_rows
    ∧ create_db (quiet notes_path notes) w1 = (Ok tt, w1).
Proof.
  destruct (create_db_keeps_rows_and_is_idempotent (quiet notes_path notes)
              empty_world) as [_ H].
  destruct (H eq_refl) as (w1 & H1 & _ & H3 & _ & _ & H6).
  exists w1. split; [exact H1|]. split; [exact H3|exact H6].
Defined.

Lemma close_never_raises_and_is_idempotent_witness :
  ∃ w1,
    close (quiet notes_path notes) notes_manager ready_world = (Ok tt, w1)
    ∧ sessions w1 !! 0%nat = Some closed_session
    ∧ close (quiet notes_path notes) notes_manager w1 = (Ok tt, w1).
Proof.
  destruct (close_never_raises_and_is_idempotent (quiet notes_path notes)
              notes_manager ready_world)
    as (w1 & H1 & _ & _ & _ & _ & H6 & _ & H8).
  exists w1. split; [exact H1|]. split; [|exact H8].
  apply H6; [reflexivity|]. by eexists.
Defined.

(** ** What a run records *)

(** A manager that was constructed: its parts, and the state it is in. *)
Lemma manager_ready e p calc c ct w1 mgr w2 :
  BackupManager_init e p calc c ct w1 = (Ok mgr, w2) →
  ∃ src arch,
    SourceDirectory_init e p calc = Ok src
    ∧ BackupArchive_init e src c ct (add_session w1) = (Ok arch, w2)
    ∧ mgr = {| session := length (sessions w1); source_dir := src;
               backup_archive := arch |}
    ∧ catalog w2 = catalog w1
    ∧ sessions w2 !! session mgr = Some fresh_session.
Proof.
  rewrite BackupManager_init_eq.
  destruct (SourceDirectory_init e p calc) as [src|ex]; [|done].
  destruct (BackupArchive_init e src c ct (add_session w1))
    as [[arch|ex] w'] eqn:Ea; [|done].
  intros [= <- <-]. exists src, arch.
  destruct (BackupArchive_init_keeps _ _ _ _ _ _ _ Ea) as [Hc Hs].
  split; [done|]. split; [done|]. split; [done|]. split; [done|].
  rewrite Hs, sessions_add_session. cbn. by apply list_lookup_middle.
Qed.



Lemma compress_refused e self w file ex :
  backup_file self = Some file → open_error e file = Some ex →
  _compress e self w = (Raise ex, w).
Proof.
  intros Hf Ho. unfold _compress. rewrite Hf. cbn [default from_option id].
  unfold store. rewrite Ho. by destruct (compression_type self).
Qed.

(** X16. A compressed run whose archive cannot be written - every
    creation of a file refused - but whose source, backup root and
    database are in order still records the backup: the catalog gets one
    row in each table, and the backup row says compressed, names the
    format, and has no size in either size column. *)
Theorem a_run_records_a_failed_write_without_size e p calc ct w :
  create_all_error e = None →
  is_dir (lookup_path e p) = true →
  is_Some (dirs w !! (home e ++ [".backups"]))
  ∨ mkdir_error e (home e ++ [".backups"]) = None →
  (∀ q, is_Some (open_error e q)) →
  (∀ o, insert_error e o = None) →
  commit_error e = None →
  ∃ w' d b,
    run e p calc true ct w = (Ok tt, w')
    ∧ directories (rows (catalog w')) = directories (rows (catalog w)) ++ [d]
    ∧ backups (rows (catalog w')) = backups (rows (catalog w)) ++ [b]
    ∧ directory_id b = d_id d
    ∧ b_compressed b = true
    ∧ b_compression_type b = Some (value ct)
    ∧ backup_size b = None ∧ b_compressed_size b = None.
Proof.
  intros Hca Hdir Hmk Ho Hi Hco.
  rewrite run_eq.
  destruct (create_db_cases e (add_session w)) as [(ex & ? & _)|[_ ->]];
    [congruence|].
  set (w1 := set_catalog _ (add_session w)).
  assert (catalog w1 = Some (rows (catalog w))) as Hc1 by done.
  assert (∃ src, SourceDirectory_init e p calc = Ok src) as [src Hsrc].
  { unfold SourceDirectory_init. rewrite Hdir.
    assert (exists_ (lookup_path e p) = true) as ->.
    { unfold is_dir, exists_ in *. by destruct (lookup_path e p ≫= resolve). }
    cbn. eauto. }
  set (self := {| source := src; compressed := true;
                  backup_path := home e ++ [".backups"]; backup_name := None;
                  backup_date := now e; compression_type := ct;
                  compressed_size := None; backup_file := None |}).
  assert (∃ w2, BackupArchive_init e src true ct (add_session w1)
                = (Ok (set_compressed_size None (prepared self)), w2))
    as [w2 Harch].
  { unfold BackupArchive_init, BackupArchive_new. fold self.
    destruct (mkdir_cases e (backup_path self) (add_session w1))
      as [[? E]|[[Hn (ex & He & E)]|(? & ? & E)]].
    2: { exfalso. change (backup_path self) with (home e ++ [".backups"]) in *.
         change (dirs (add_session w1)) with (dirs w) in Hn.
         destruct Hmk as [[m Hm]|Hm];
           [by pose proof (eq_trans (eq_sym Hm) Hn)
           |by pose proof (eq_trans (eq_sym Hm) He)]. }
    all: rewrite (post_init_after_mkdir _ _ _ _ E); eexists;
      unfold try_except, write_step;
      assert (compressed (prepared self) = true) as -> by done;
      unfold bind at 1;
      pose proof (prepared_file self) as Hf;
      destruct (Ho (joinpath (backup_path self)
                      (_make_backup_name self
                       +:+ suffix (compressed self) (compression_type self))))
        as [ex Hex];
      by rewrite (compress_refused _ _ _ _ _ Hf Hex). }
  assert (BackupManager_init e p calc true ct w1
          = (Ok {| session := length (sessions w1); source_dir := src;
                   backup_archive := set_compressed_size None (prepared self) |},
             w2)) as Em.
  { by rewrite BackupManager_init_eq, Hsrc, Harch. }
  rewrite Em.
  destruct (manager_ready _ _ _ _ _ _ _ _ Em)
    as (_ & _ & _ & _ & _ & Hc2 & Hl).
  rewrite (save_backup_metadata_eq e _ w2 fresh_session Hl eq_refl eq_refl).
  rewrite Hc2, Hc1, Hi. cbn zeta. rewrite Hi, Hco.
  rewrite close_eq. cbn [snd].
  eexists _, _, _. split; [reflexivity|].
  assert (∀ v h, catalog
                 (match close_error e, sessions v !! h with
                  | None, Some _ =>
                      set_sessions (λ l, <[h := closed_session]> l) v
                  | _, _ => v
                  end) = catalog v) as ->.
  { intros v h. destruct (close_error e); [done|].
    by destruct (sessions v !! h). }
  cbn. repeat split; reflexivity.
Qed.

Lemma a_run_records_a_failed_write_without_size_witness :
  ∃ w' b,
    run (read_only notes_path notes) notes_path true true ZIP empty_world
    = (Ok tt, w')
    ∧ backups (rows (catalog w')) = [b]
    ∧ backup_size b = None
    ∧ dirs w' = {[ backups_path := ∅ ]}.
Proof.
  destruct (a_run_records_a_failed_write_without_size
              (read_only notes_path notes) notes_path true ZIP empty_world)
    as (w' & d & b & H1 & _ & H3 & _ & _ & _ & H7 & _).
  - reflexivity.
  - reflexivity.
  - right. reflexivity.
  - intros q. by eexists.
  - intros o. reflexivity.
  - reflexivity.
  - exists w', b. split; [exact H1|]. split; [exact H3|]. split; [exact H7|].
    vm_compute in H1. injection H1 as <-. reflexivity.
Defined.

(** ** Small instances *)

Lemma safe_name_is_idempotent_and_keeps_length_witness :
  _make_safe_name "a_b.txt" = "a_b.txt"
  ∧ String.length (_make_safe_name "a b/c") = 5%nat.
Proof.
  destruct (safe_name_is_idempotent_and_keeps_length "a_b.txt")
    as (_ & _ & H).
  destruct (safe_name_is_idempotent_and_keeps_length "a b/c") as (_ & Hl & _).
  split; [|exact Hl].
  apply H. repeat constructor.
Defined.

Lemma has_value_exactly_the_member_values_witness :
  has_value "tar.gz" = true ∧ has_value "rar" ≠ true.
Proof.
  split.
  - apply has_value_exactly_the_member_values. by exists TAR_GZ.
  - intros H. apply has_value_exactly_the_member_values in H as [c Hc].
    by destruct c.
Defined.

Lemma size_is_the_whole_sum_or_zero_witness :
  _get_size (quiet notes_path notes) notes_path (Symlink (Some (Dir []))) = 0.
Proof.
  apply (size_is_the_whole_sum_or_zero (quiet notes_path notes) notes_path
           (Symlink (Some (Dir [])))).
  reflexivity.
Defined.

